(** * RetellWebClient: the simulated-microphone audio pipeline

    A shallow embedding of the [RetellWebClient] class of the Retell client
    SDK (TypeScript, on top of livekit-client and the Web Audio API) and the
    properties of its send pipeline, its teardown and its control-channel
    handler.

    The class is stateful and talks to external collaborators (the LiveKit
    room, the audio context, timers, the console).  Methods are embedded as
    computations in a small state/exception monad that also records every
    call to a collaborator, together with the client state at the moment of
    the call.  What a collaborator answers (does [publishTrack] reject, is
    the context suspended, ...) is not decided by this code: it is supplied
    by an environment record.  An [await] is sequential composition: the
    spec asks callers to serialise their sends, and the claims are about one
    method running at a time.

    [console.log] lines are informational and not recorded; [console.warn]
    and [console.error] are. *)

From Stdlib Require Import String Ascii ZArith QArith Qround List Bool Lia Lqa.
From Stdlib Require Import DecimalString DecimalZ.
Import ListNotations.

Set Warnings "-register-all".

Local Open Scope Z_scope.

(** ** Data model *)

(** A [Float32Array] element, as its 32-bit pattern.  The pipeline only
    copies samples, it never computes with them; a copy goes through a
    Number, see [stored]. *)
Definition float32 : Type := Z.

(** The default quiet NaN. *)
Definition NaN32 : float32 := 0x7FC00000.

(** Is the pattern a NaN: exponent bits all ones, fraction bits not all
    zero. *)
Definition is_nan32 (v : float32) : bool :=
  (Z.land v 0x7F800000 =? 0x7F800000) && negb (Z.land v 0x007FFFFF =? 0).

(** Web Audio [AudioBuffer], mono: [getChannelData(0)] and [sampleRate], a
    whole number of hertz.  [length] and [duration] are derived, as in the
    Web Audio API. *)
Record AudioBuffer : Type := mkAudioBuffer {
  sampleRate : Z;
  channelData : list float32
}.

Definition samples (b : AudioBuffer) : Z := Z.of_nat (length (channelData b)).

(** [audioBuffer.duration], in seconds. *)
Definition duration (b : AudioBuffer) : Q :=
  inject_Z (samples b) / inject_Z (sampleRate b).

Inductive ContextState : Type := suspended | running | closed.

Record AudioContext : Type := mkAudioContext { state : ContextState }.

Record MediaStreamTrack : Type := mkTrack { track_id : Z }.

(** The value [publishTrack] resolves to; the class only reads [.track]. *)
Record Publication : Type := mkPublication {
  track : MediaStreamTrack;
  trackName : string
}.

Record Room : Type := mkRoom { name : string }.

Record AnalyzerComponent : Type := mkAnalyzer { analysed : Z }.

Record RemoteParticipant : Type := mkParticipant { identity : string }.

(** Values produced by [JSON.parse]. *)
Inductive json : Type :=
| JNull
| JBool (b : bool)
| JNumber (q : Q)
| JString (s : string)
| JArray (items : list json)
| JObject (fields : list (string * json)).

(** The fields of the class.  An optional or deleted field is [None]. *)
Record RetellWebClient : Type := mkClient {
  room : option Room;
  connected : bool;
  isAgentTalking : bool;
  analyzerComponent : option AnalyzerComponent;
  captureAudioFrame : option Z;
  audioContext : option AudioContext;
  audioTrackCounter : Z;
  currentAudioPublication : option Publication
}.

(** The object built by the constructor. *)
Definition new_RetellWebClient : RetellWebClient :=
  {| room := None; connected := false; isAgentTalking := false;
     analyzerComponent := None; captureAudioFrame := None;
     audioContext := None; audioTrackCounter := 0;
     currentAudioPublication := None |}.

Definition set_room (v : option Room) (c : RetellWebClient) :=
  mkClient v (connected c) (isAgentTalking c) (analyzerComponent c)
    (captureAudioFrame c) (audioContext c) (audioTrackCounter c)
    (currentAudioPublication c).

Definition set_connected (v : bool) (c : RetellWebClient) :=
  mkClient (room c) v (isAgentTalking c) (analyzerComponent c)
    (captureAudioFrame c) (audioContext c) (audioTrackCounter c)
    (currentAudioPublication c).

Definition set_isAgentTalking (v : bool) (c : RetellWebClient) :=
  mkClient (room c) (connected c) v (analyzerComponent c)
    (captureAudioFrame c) (audioContext c) (audioTrackCounter c)
    (currentAudioPublication c).

Definition set_analyzerComponent (v : option AnalyzerComponent)
    (c : RetellWebClient) :=
  mkClient (room c) (connected c) (isAgentTalking c) v
    (captureAudioFrame c) (audioContext c) (audioTrackCounter c)
    (currentAudioPublication c).

Definition set_captureAudioFrame (v : option Z) (c : RetellWebClient) :=
  mkClient (room c) (connected c) (isAgentTalking c) (analyzerComponent c)
    v (audioContext c) (audioTrackCounter c) (currentAudioPublication c).

Definition set_audioContext (v : option AudioContext) (c : RetellWebClient) :=
  mkClient (room c) (connected c) (isAgentTalking c) (analyzerComponent c)
    (captureAudioFrame c) v (audioTrackCounter c) (currentAudioPublication c).

Definition set_audioTrackCounter (v : Z) (c : RetellWebClient) :=
  mkClient (room c) (connected c) (isAgentTalking c) (analyzerComponent c)
    (captureAudioFrame c) (audioContext c) v (currentAudioPublication c).

Definition set_currentAudioPublication (v : option Publication)
    (c : RetellWebClient) :=
  mkClient (room c) (connected c) (isAgentTalking c) (analyzerComponent c)
    (captureAudioFrame c) (audioContext c) (audioTrackCounter c) v.

(** ** Effects *)

(** Calls to collaborators.  Times are in milliseconds, except the argument
    of [SourceStart], which is the offset in seconds from the
    [currentTime] read at the start of the progressive loop. *)
Inductive event : Type :=
| Emit (type : string) (arg : option json)
| RoomConnect
| RoomDisconnect
| SetMicrophoneEnabled (on : bool)
| AnalyzerCleanup
| CancelAnimationFrame (id : Z)
| UnpublishTrack (t : MediaStreamTrack)
| PublishTrack (t : MediaStreamTrack) (trackName : string)
| NewAudioContext
| ContextResume
| ContextClose
| CreateMediaStreamDestination
| CreateBuffer (length rate : Z)
| CreateBufferSource
| SourceConnect
| SourceStart (when : Q) (buffer : AudioBuffer)
| SourceDisconnect
| DestinationDisconnect
| TrackStop (t : MediaStreamTrack)
| Sleep (ms : Q)
| SetTimeout (ms : Q)
| ClearTimeout
| ConsoleWarn (msg : string)
| ConsoleError (msg : string).

Inductive exn : Type :=
| Error (message : string)
| TypeError (message : string)
| SyntaxError
| NotSupportedError
| Failure (what : string).

(** How a method ends.  For an [async] method [Return] is a resolved
    promise, [Throw] a rejected one and [Pending] one that never settles. *)
Inductive completion (A : Type) : Type :=
| Return (a : A)
| Throw (e : exn)
| Pending.

Arguments Return {A} a.
Arguments Throw {A} e.
Arguments Pending {A}.

(** A log entry: the client as it was when the call was made, and the call. *)
Definition entry : Type := (RetellWebClient * event)%type.

Record result (A : Type) : Type := mkResult {
  log : list entry;
  final : RetellWebClient;
  outcome : completion A
}.

Arguments mkResult {A} log final outcome.
Arguments log {A} r.
Arguments final {A} r.
Arguments outcome {A} r.

Definition M (A : Type) : Type := RetellWebClient -> result A.

Definition ret {A : Type} (a : A) : M A :=
  fun c => mkResult [] c (Return a).

Definition throw {A : Type} (e : exn) : M A :=
  fun c => mkResult [] c (Throw e).

Definition never {A : Type} : M A :=
  fun c => mkResult [] c Pending.

Definition bind {A B : Type} (m : M A) (f : A -> M B) : M B :=
  fun c =>
    match m c with
    | mkResult l c' (Return a) =>
        match f a c' with
        | mkResult l' c'' o => mkResult (l ++ l') c'' o
        end
    | mkResult l c' (Throw e) => mkResult l c' (Throw e)
    | mkResult l c' Pending => mkResult l c' Pending
    end.

(** [try { m } catch (err) { h err }] *)
Definition try_catch {A : Type} (m : M A) (h : exn -> M A) : M A :=
  fun c =>
    match m c with
    | mkResult l c' (Throw e) =>
        match h e c' with
        | mkResult l' c'' o => mkResult (l ++ l') c'' o
        end
    | r => r
    end.

Definition this : M RetellWebClient :=
  fun c => mkResult [] c (Return c).

Definition assign (f : RetellWebClient -> RetellWebClient) : M unit :=
  fun c => mkResult [] (f c) (Return tt).

Definition perform (e : event) : M unit :=
  fun c => mkResult [(c, e)] c (Return tt).

Declare Scope js_scope.
Delimit Scope js_scope with js.

Notation "x <- m ;; k" := (bind m (fun x => k))
  (at level 100, m at next level, right associativity) : js_scope.
Notation "m ;; k" := (bind m (fun _ => k))
  (at level 100, right associativity) : js_scope.

Local Open Scope js_scope.

(** [if (cond) { body }] with no else branch. *)
Definition when (cond : bool) (body : M unit) : M unit :=
  if cond then body else ret tt.

(** [this.room.localParticipant]: a [TypeError] once [this.room] is
    deleted. *)
Definition localParticipant : M Room :=
  c <- this ;;
  match room c with
  | Some r => ret r
  | None =>
      throw (TypeError
        "Cannot read properties of undefined (reading 'localParticipant')")
  end.

(** [this.audioContext.<member>]: a [TypeError] once the field is deleted. *)
Definition the_audioContext : M AudioContext :=
  c <- this ;;
  match audioContext c with
  | Some ctx => ret ctx
  | None =>
      throw (TypeError "Cannot read properties of undefined")
  end.

(** Truthiness of a number-valued optional field. *)
Definition truthy_number (n : option Z) : bool :=
  match n with
  | Some v => negb (v =? 0)
  | None => false
  end.

Definition is_closed (s : ContextState) : bool :=
  match s with closed => true | _ => false end.

Definition is_suspended (s : ContextState) : bool :=
  match s with suspended => true | _ => false end.

(** ** [stopCall] *)

Definition stopCall : M unit :=
  c <- this ;;
  if negb (connected c) then ret tt else
  assign (set_connected false) ;;
  perform (Emit "call_ended" None) ;;
  when (match room c with Some _ => true | None => false end)
    (perform RoomDisconnect) ;;
  assign (set_isAgentTalking false) ;;
  assign (set_room None) ;;
  when (match analyzerComponent c with Some _ => true | None => false end)
    (perform AnalyzerCleanup ;;
     assign (set_analyzerComponent None)) ;;
  when (truthy_number (captureAudioFrame c))
    (perform (CancelAnimationFrame
                (match captureAudioFrame c with Some id => id | None => 0 end)) ;;
     assign (set_captureAudioFrame None)) ;;
  match currentAudioPublication c with
  | Some pub =>
      try_catch
        (_ <- localParticipant ;;
         perform (UnpublishTrack (track pub)))
        (fun _ => perform (ConsoleWarn "Error unpublishing track on stopCall")) ;;
      assign (set_currentAudioPublication None)
  | None => ret tt
  end ;;
  match audioContext c with
  | Some ctx =>
      when (negb (is_closed (state ctx)))
        (perform ContextClose ;;
         assign (set_audioContext None))
  | None => ret tt
  end ;;
  assign (set_audioTrackCounter 0).

(** ** Track names *)

(** [String(n)] for an integer-valued number (plain decimal below 1e21). *)
Definition number_toString (n : Z) : string :=
  NilEmpty.string_of_int (Z.to_int n).

(** [n++] on an integer-valued double: exact below 2^53, where the next
    integer is no longer representable and the sum rounds back to [n]. *)
Definition js_incr (n : Z) : Z :=
  if n <? 2 ^ 53 then n + 1 else n.

(** [`simulated_audio_${counter}`] *)
Definition simulated_audio (counter : Z) : string :=
  ("simulated_audio_" ++ number_toString counter)%string.

(** ** What the collaborators answer during one send *)

Record SendEnv : Type := mkSendEnv {
  (** does [unpublishTrack] of the previous track resolve *)
  unpublish_ok : bool;
  (** does [audioContext.resume()] resolve *)
  resume_ok : bool;
  (** does [createMediaStreamDestination()] return *)
  destination_ok : bool;
  (** [destination.stream.getAudioTracks()[0]] *)
  new_track : option MediaStreamTrack;
  (** does [publishTrack] resolve *)
  publish_ok : bool;
  (** can the buffer and source of chunk [i] be created and started *)
  chunk_ok : Z -> bool;
  (** the NaN encoding the platform picks when a [Float32Array] store is
      given NaN, for the element just read ([None]: [undefined]) *)
  nan_encoding : option float32 -> float32
}.

(** ** [sendAudioProgressively] *)

Definition chunkDurationMs : Z := 20.

(** [Math.floor((sampleRate * chunkDurationMs) / 1000)] *)
Definition chunkSizeInSamples (sampleRate : Z) : Z :=
  (sampleRate * chunkDurationMs) / 1000.

(** [Math.ceil(a / b)] on integers, [b] not zero.  (The quotient of two
    integers below 2^53 is a double that is an integer only when the
    division is exact, so rounding the quotient first changes nothing.) *)
Definition ceil_div (a b : Z) : Z := - ((- a) / b).

(** The value of [Math.ceil(totalSamples / chunkSizeInSamples)]: a division
    by zero gives [Infinity], and [0 / 0] gives [NaN]. *)
Inductive bound : Type :=
| Finite (n : Z)
| Infinity
| NaN.

Definition numChunks (totalSamples chunkSize : Z) : bound :=
  if chunkSize =? 0 then
    if totalSamples =? 0 then NaN else Infinity
  else Finite (ceil_div totalSamples chunkSize).

(** How often the test [i < numChunks] of the [for] loop can succeed from
    [i = 0].  It never fails against [Infinity]; that only arises with a
    chunk size of zero, where the first iteration already throws (see
    [chunk_loop_zero_size]), so one round is all that is ever run. *)
Definition iterations (b : bound) : nat :=
  match b with
  | Finite n => Z.to_nat n
  | Infinity => 1%nat
  | NaN => 0%nat
  end.

(** [a[k]] read from a typed array: the element, or [undefined] ([None])
    out of range. *)
Definition read (a : list float32) (k : nat) : option float32 := nth_error a k.

(** A pattern of the platform's choosing, made a NaN encoding. *)
Definition as_nan (p : float32) : float32 := if is_nan32 p then p else NaN32.

(** What a [Float32Array] store leaves for the Number that the element [x]
    reads as.  A sample that is not a NaN converts to a double and back
    unchanged.  A NaN, and [undefined], which converts to NaN, are stored
    as whichever NaN encoding the platform picks: the pattern need not be
    the one read. *)
Definition stored (encoding : option float32 -> float32) (x : option float32)
    : float32 :=
  match x with
  | Some v => if is_nan32 v then as_nan (encoding x) else v
  | None => as_nan (encoding x)
  end.

(** [a[j] = x] on a [Float32Array]: ignored out of range. *)
Fixpoint write (encoding : option float32 -> float32) (j : nat)
    (x : option float32) (a : list float32) : list float32 :=
  match a, j with
  | [], _ => []
  | _ :: a', O => stored encoding x :: a'
  | y :: a', S j' => y :: write encoding j' x a'
  end.

(** [for (let j = ...; j < chunkSize; j++) dst[j] = src[offset + j]], with
    [fuel] rounds left. *)
Fixpoint copy_samples (encoding : option float32 -> float32)
    (fuel j offset : nat) (src dst : list float32) : list float32 :=
  match fuel with
  | O => dst
  | S fuel' =>
      copy_samples encoding fuel' (S j) offset src
        (write encoding j (read src (offset + j)%nat) dst)
  end.

(** [audioContext.createBuffer(1, length, rate)]: a silent buffer; a
    [NotSupportedError] for a length of zero. *)
Definition createBuffer (env : SendEnv) (i length rate : Z) : M AudioBuffer :=
  _ <- the_audioContext ;;
  perform (CreateBuffer length rate) ;;
  if length <=? 0 then throw NotSupportedError
  else if negb (chunk_ok env i) then throw (Failure "chunk")
  else ret (mkAudioBuffer rate (repeat 0 (Z.to_nat length))).

(** The [for] loop of [sendAudioProgressively], from round [i] at [offset],
    with [fuel] rounds left. *)
Fixpoint chunk_loop (env : SendEnv) (audioBuffer : AudioBuffer)
    (fuel : nat) (i offset : Z) : M unit :=
  match fuel with
  | O => ret tt
  | S fuel' =>
      let chunkSize :=
        Z.min (chunkSizeInSamples (sampleRate audioBuffer))
              (samples audioBuffer - offset) in
      chunkBuffer <- createBuffer env i chunkSize (sampleRate audioBuffer) ;;
      let chunkChannelData :=
        copy_samples (nan_encoding env) (Z.to_nat chunkSize) 0 (Z.to_nat offset)
          (channelData audioBuffer) (channelData chunkBuffer) in
      let chunkBuffer := mkAudioBuffer (sampleRate chunkBuffer) chunkChannelData in
      _ <- the_audioContext ;;
      perform CreateBufferSource ;;
      perform SourceConnect ;;
      perform (SourceStart (inject_Z (i * chunkDurationMs) / 1000) chunkBuffer) ;;
      perform (Sleep (inject_Z chunkDurationMs)) ;;
      chunk_loop env audioBuffer fuel' (i + 1) (offset + chunkSize)
  end.

(** [(totalSamples % chunkSizeInSamples) || chunkSizeInSamples] *)
Definition finalChunkSamples (totalSamples chunkSize : Z) : Z :=
  if chunkSize =? 0 then 0
  else if Z.rem totalSamples chunkSize =? 0 then chunkSize
  else Z.rem totalSamples chunkSize.

(** [finalChunkDuration], in milliseconds. *)
Definition finalChunkDuration (audioBuffer : AudioBuffer) : Q :=
  inject_Z (finalChunkSamples (samples audioBuffer)
              (chunkSizeInSamples (sampleRate audioBuffer)))
  / inject_Z (sampleRate audioBuffer) * 1000.

Definition sendAudioProgressively (env : SendEnv) (audioBuffer : AudioBuffer)
    : M unit :=
  let chunkSize := chunkSizeInSamples (sampleRate audioBuffer) in
  let totalSamples := samples audioBuffer in
  _ <- the_audioContext ;;
  chunk_loop env audioBuffer (iterations (numChunks totalSamples chunkSize)) 0 0 ;;
  perform (Sleep (finalChunkDuration audioBuffer + 100)).

(** ** [sendAudioBuffer], progressive variant *)

Definition settleDelayMs : Z := 200.

(** The part of [sendAudioBuffer] inside its [try] block. *)
Definition sendAudioBuffer_body (env : SendEnv) (audioBuffer : AudioBuffer)
    : M unit :=
  c <- this ;;
  match currentAudioPublication c with
  | Some pub =>
      try_catch
        (_ <- localParticipant ;;
         perform (UnpublishTrack (track pub)) ;;
         if unpublish_ok env then ret tt else throw (Failure "unpublishTrack"))
        (fun _ => perform (ConsoleWarn "Error unpublishing previous track")) ;;
      assign (set_currentAudioPublication None)
  | None => ret tt
  end ;;
  ctx <- the_audioContext ;;
  when (is_suspended (state ctx))
    (perform ContextResume ;;
     if resume_ok env
     then assign (set_audioContext (Some (mkAudioContext running)))
     else throw (Failure "resume")) ;;
  _ <- the_audioContext ;;
  perform CreateMediaStreamDestination ;;
  (if destination_ok env then ret tt
   else throw (Failure "createMediaStreamDestination")) ;;
  audioTrack <- match new_track env with
                | Some t => ret t
                | None => throw (Error "Failed to create audio track")
                end ;;
  c <- this ;;
  let trackName := simulated_audio (audioTrackCounter c) in
  assign (set_audioTrackCounter (js_incr (audioTrackCounter c))) ;;
  _ <- localParticipant ;;
  perform (PublishTrack audioTrack trackName) ;;
  publication <- (if publish_ok env then ret (mkPublication audioTrack trackName)
                  else throw (Failure "publishTrack")) ;;
  assign (set_currentAudioPublication (Some publication)) ;;
  perform (Sleep (inject_Z settleDelayMs)) ;;
  sendAudioProgressively env audioBuffer ;;
  perform DestinationDisconnect ;;
  perform (TrackStop audioTrack).

Definition sendAudioBuffer (env : SendEnv) (audioBuffer : AudioBuffer)
    : M unit :=
  c <- this ;;
  if negb (connected c) then
    throw (Error "Cannot send audio buffer: not connected to call")
  else
  match audioContext c with
  | None =>
      throw (Error
        "AudioContext not initialized. Make sure to set simulationMode: true in startCall()")
  | Some _ =>
      try_catch (sendAudioBuffer_body env audioBuffer)
        (fun err =>
           perform (ConsoleError "Error sending audio buffer") ;;
           throw err)
  end.

(** ** [sendAudioBuffer], whole-buffer variant

    The other version of the class publishes the clip as one scheduled unit
    and waits for [onended] or for a safety timer. *)

Module WholeBuffer.

(** The callbacks that can fire while the returned promise is pending. *)
Inductive callback : Type := onended | safety_timeout.

Record PlayEnv : Type := mkPlayEnv {
  (** the callbacks, in the order in which they fire *)
  fires : list callback;
  (** does [source.disconnect()] inside [cleanup] return *)
  teardown_ok : bool
}.

(** The variables captured by the promise executor, and the promise. *)
Record Playback : Type := mkPlayback {
  timeoutId : option Z;
  isCleanedUp : bool;
  settled : option (completion unit)
}.

(** [resolve()] and [reject(err)]: a settled promise stays as it is. *)
Definition settle (c : completion unit) (p : Playback) : Playback :=
  match settled p with
  | Some _ => p
  | None => mkPlayback (timeoutId p) (isCleanedUp p) (Some c)
  end.

Definition cleanup (penv : PlayEnv) (audioTrack : MediaStreamTrack)
    (isError : bool) (p : Playback) : M Playback :=
  if isCleanedUp p then ret p else
  let p := mkPlayback (timeoutId p) true (settled p) in
  p <- match timeoutId p with
       | Some _ =>
           perform ClearTimeout ;;
           ret (mkPlayback None (isCleanedUp p) (settled p))
       | None => ret p
       end ;;
  try_catch
    (perform SourceDisconnect ;;
     (if teardown_ok penv then ret tt else throw (Failure "disconnect")) ;;
     perform DestinationDisconnect ;;
     perform (TrackStop audioTrack) ;;
     if isError
     then ret (settle (Throw (Error "Audio buffer playback timeout")) p)
     else ret (settle (Return tt) p))
    (fun err =>
       perform (ConsoleError "Error cleaning up audio buffer") ;;
       ret (settle (Throw err) p)).

(** One callback firing.  A cleared timer does not fire. *)
Definition fire (penv : PlayEnv) (audioTrack : MediaStreamTrack)
    (cb : callback) (p : Playback) : M Playback :=
  match cb with
  | onended => cleanup penv audioTrack false p
  | safety_timeout =>
      match timeoutId p with
      | Some _ =>
          perform (ConsoleWarn "Audio buffer playback timeout") ;;
          cleanup penv audioTrack true p
      | None => ret p
      end
  end.

Fixpoint fire_all (penv : PlayEnv) (audioTrack : MediaStreamTrack)
    (cbs : list callback) (p : Playback) : M Playback :=
  match cbs with
  | [] => ret p
  | cb :: cbs' =>
      p' <- fire penv audioTrack cb p ;;
      fire_all penv audioTrack cbs' p'
  end.

(** How the promise returned from inside the [try] block settles.  It is
    returned, not awaited, so its rejection does not pass through the
    [catch] of [sendAudioBuffer]. *)
Definition playback (penv : PlayEnv) (audioTrack : MediaStreamTrack)
    : M unit :=
  p <- fire_all penv audioTrack (fires penv) (mkPlayback (Some 1) false None) ;;
  match settled p with
  | Some (Return _) => ret tt
  | Some (Throw e) => throw e
  | _ => never
  end.

Definition settleDelayMs : Z := 400.

(** The part of [sendAudioBuffer] inside its [try] block, up to and with
    the promise executor, which arms the safety timer. *)
Definition sendAudioBuffer_body (env : SendEnv) (audioBuffer : AudioBuffer)
    : M MediaStreamTrack :=
  c <- this ;;
  match currentAudioPublication c with
  | Some pub =>
      try_catch
        (_ <- localParticipant ;;
         perform (UnpublishTrack (track pub)) ;;
         if unpublish_ok env then ret tt else throw (Failure "unpublishTrack"))
        (fun _ => perform (ConsoleWarn "Error unpublishing previous track")) ;;
      assign (set_currentAudioPublication None)
  | None => ret tt
  end ;;
  ctx <- the_audioContext ;;
  when (is_suspended (state ctx))
    (perform ContextResume ;;
     if resume_ok env
     then assign (set_audioContext (Some (mkAudioContext running)))
     else throw (Failure "resume")) ;;
  _ <- the_audioContext ;;
  perform CreateBufferSource ;;
  _ <- the_audioContext ;;
  perform CreateMediaStreamDestination ;;
  (if destination_ok env then ret tt
   else throw (Failure "createMediaStreamDestination")) ;;
  perform SourceConnect ;;
  audioTrack <- match new_track env with
                | Some t => ret t
                | None => throw (Error "Failed to create audio track from buffer")
                end ;;
  c <- this ;;
  let trackName := simulated_audio (audioTrackCounter c) in
  assign (set_audioTrackCounter (js_incr (audioTrackCounter c))) ;;
  _ <- localParticipant ;;
  perform (PublishTrack audioTrack trackName) ;;
  publication <- (if publish_ok env then ret (mkPublication audioTrack trackName)
                  else throw (Failure "publishTrack")) ;;
  assign (set_currentAudioPublication (Some publication)) ;;
  perform (Sleep (inject_Z settleDelayMs)) ;;
  perform (SourceStart 0 audioBuffer) ;;
  perform (SetTimeout ((duration audioBuffer + 5) * 1000)) ;;
  ret audioTrack.

Definition sendAudioBuffer (env : SendEnv) (penv : PlayEnv)
    (audioBuffer : AudioBuffer) : M unit :=
  c <- this ;;
  if negb (connected c) then
    throw (Error "Cannot send audio buffer: not connected to call")
  else
  match audioContext c with
  | None =>
      throw (Error
        "AudioContext not initialized. Make sure to set simulationMode: true in startCall()")
  | Some _ =>
      audioTrack <- try_catch (sendAudioBuffer_body env audioBuffer)
                      (fun err =>
                         perform (ConsoleError "Error sending audio buffer") ;;
                         throw err) ;;
      playback penv audioTrack
  end.

End WholeBuffer.

(** ** [startCall] *)

Record StartCallConfig : Type := mkConfig {
  accessToken : string;
  simulationMode : bool;
  emitRawAudioSamples : bool
}.

Record StartEnv : Type := mkStartEnv {
  (** does [room.connect] resolve *)
  connect_ok : bool;
  (** the context [new AudioContext(...)] builds; [None] when it throws *)
  new_context : option AudioContext
}.

Definition startCall (env : StartEnv) (startCallConfig : StartCallConfig)
    : M unit :=
  try_catch
    (assign (set_room (Some (mkRoom "room"))) ;;
     perform RoomConnect ;;
     (if connect_ok env then ret tt else throw (Failure "connect")) ;;
     (if negb (simulationMode startCallConfig) then
        _ <- localParticipant ;;
        perform (SetMicrophoneEnabled true)
      else
        perform NewAudioContext ;;
        match new_context env with
        | Some ctx => assign (set_audioContext (Some ctx))
        | None => throw (Failure "AudioContext")
        end) ;;
     assign (set_connected true) ;;
     perform (Emit "call_started" None))
    (fun _ =>
       perform (Emit "error" (Some (JString "Error starting call"))) ;;
       perform (ConsoleError "Error starting call") ;;
       stopCall).

(** ** [handleDataEvents] *)

(** [event.event_type]: reading a property of [null] is a [TypeError]; an
    object yields the value [JSON.parse] kept for the key (the last one of
    duplicates); any other value has no such property. *)
Fixpoint lookup (key : string) (fields : list (string * json)) : option json :=
  match fields with
  | [] => None
  | (k, v) :: rest =>
      match lookup key rest with
      | Some v' => Some v'
      | None => if String.eqb k key then Some v else None
      end
  end.

Definition event_type (event : json) : M (option json) :=
  match event with
  | JNull =>
      throw (TypeError "Cannot read properties of null (reading 'event_type')")
  | JObject fields => ret (lookup "event_type" fields)
  | _ => ret None
  end.

(** [v === s] for a string literal [s]. *)
Definition strict_eq_string (v : option json) (s : string) : bool :=
  match v with
  | Some (JString s') => String.eqb s' s
  | _ => false
  end.

(** [participant?.identity !== "server"] *)
Definition not_server (participant : option RemoteParticipant) : bool :=
  match participant with
  | Some p => negb (String.eqb (identity p) "server")
  | None => true
  end.

Section DataEvents.

(** [TextDecoder.decode] and [JSON.parse] are built-ins of the platform;
    [JSON_parse] gives [None] where [JSON.parse] throws a [SyntaxError]. *)
Variable decode : list Byte.byte -> string.
Variable JSON_parse : string -> option json.

(** The listener registered for [RoomEvent.DataReceived]. *)
Definition handleDataEvents (payload : list Byte.byte)
    (participant : option RemoteParticipant) : M unit :=
  try_catch
    (if not_server participant then ret tt else
     let decodedData := decode payload in
     event <- match JSON_parse decodedData with
              | Some v => ret v
              | None => throw SyntaxError
              end ;;
     ty <- event_type event ;;
     if strict_eq_string ty "update" then
       perform (Emit "update" (Some event))
     else if strict_eq_string ty "metadata" then
       perform (Emit "metadata" (Some event))
     else if strict_eq_string ty "agent_start_talking" then
       assign (set_isAgentTalking true) ;;
       perform (Emit "agent_start_talking" None)
     else if strict_eq_string ty "agent_stop_talking" then
       assign (set_isAgentTalking false) ;;
       perform (Emit "agent_stop_talking" None)
     else if strict_eq_string ty "node_transition" then
       perform (Emit "node_transition" (Some event))
     else ret tt)
    (fun _ => perform (ConsoleError "Error decoding data received")).

End DataEvents.

(** ** [mute] and [unmute] *)

Definition mute : M unit :=
  c <- this ;;
  when (connected c)
    (_ <- localParticipant ;;
     perform (SetMicrophoneEnabled false)).

Definition unmute : M unit :=
  c <- this ;;
  when (connected c)
    (_ <- localParticipant ;;
     perform (SetMicrophoneEnabled true)).

(** ** [handleRoomEvents] *)

(** What the listeners registered by [handleRoomEvents] can be called
    with: a participant left, the room disconnected, and the timer that the
    first listener arms has fired. *)
Inductive room_event : Type :=
| ParticipantDisconnected (participant : option RemoteParticipant)
| HangupTimerFired
| Disconnected.

Definition hangupDelayMs : Z := 500.

(** The listeners.  The one for a participant that left only arms the
    timer; [stopCall] is the timer's callback. *)
Definition roomEvent (ev : room_event) : M unit :=
  match ev with
  | ParticipantDisconnected participant =>
      when (negb (not_server participant))
        (perform (SetTimeout (inject_Z hangupDelayMs)))
  | HangupTimerFired => stopCall
  | Disconnected => stopCall
  end.

(** ** [sendAudioChunk]

    The version of the class with the whole-buffer [sendAudioBuffer] also
    streams single PCM chunks. *)

Record ChunkEnv : Type := mkChunkEnv {
  (** does [onended] fire *)
  ended : bool;
  (** does [source.disconnect()] in the [onended] handler return *)
  disconnect_ok : bool
}.

Definition streamTrackName : string := "simulated_audio_stream".

Section Chunk.

(** [x / 32768.0] stored in a [Float32Array]: the platform's arithmetic. *)
Variable to_float32 : Z -> float32.

(** The part of [sendAudioChunk] inside its [try] block. *)
Definition sendAudioChunk_body (env : SendEnv) (cenv : ChunkEnv)
    (pcmChunk : list Z) : M unit :=
  ctx <- the_audioContext ;;
  when (is_suspended (state ctx))
    (perform ContextResume ;;
     if resume_ok env
     then assign (set_audioContext (Some (mkAudioContext running)))
     else throw (Failure "resume")) ;;
  let float32Data := map to_float32 pcmChunk in
  audioBuffer <- createBuffer env 0 (Z.of_nat (length float32Data)) 24000 ;;
  let audioBuffer := mkAudioBuffer (sampleRate audioBuffer) float32Data in
  _ <- the_audioContext ;;
  perform CreateBufferSource ;;
  _ <- the_audioContext ;;
  perform CreateMediaStreamDestination ;;
  (if destination_ok env then ret tt
   else throw (Failure "createMediaStreamDestination")) ;;
  perform SourceConnect ;;
  audioTrack <- match new_track env with
                | Some t => ret t
                | None => throw (Error "Failed to create audio track from chunk")
                end ;;
  c <- this ;;
  match currentAudioPublication c with
  | None =>
      _ <- localParticipant ;;
      perform (PublishTrack audioTrack streamTrackName) ;;
      publication <- (if publish_ok env
                      then ret (mkPublication audioTrack streamTrackName)
                      else throw (Failure "publishTrack")) ;;
      assign (set_currentAudioPublication (Some publication))
  | Some _ => ret tt
  end ;;
  perform (SourceStart 0 audioBuffer) ;;
  if ended cenv then
    try_catch
      (perform SourceDisconnect ;;
       (if disconnect_ok cenv then ret tt else throw (Failure "disconnect")) ;;
       perform DestinationDisconnect)
      (fun _ => ret tt) ;;
    perform (TrackStop audioTrack)
  else never.

Definition sendAudioChunk (env : SendEnv) (cenv : ChunkEnv)
    (pcmChunk : list Z) : M unit :=
  c <- this ;;
  if negb (connected c) then
    throw (Error "Cannot send audio chunk: not connected to call")
  else
  match audioContext c with
  | None =>
      throw (Error
        "AudioContext not initialized. Make sure to set simulationMode: true in startCall()")
  | Some _ =>
      try_catch (sendAudioChunk_body env cenv pcmChunk)
        (fun err =>
           perform (ConsoleError "Error sending audio chunk") ;;
           throw err)
  end.

End Chunk.

(** ** The life of a client *)

Section Lifetime.

Variable decode : list Byte.byte -> string.
Variable JSON_parse : string -> option json.

(** What can happen to a client: the public methods called by the
    application and the listeners called by the room. *)
Inductive op : Type :=
| Start (env : StartEnv) (startCallConfig : StartCallConfig)
| Stop
| Send (env : SendEnv) (audioBuffer : AudioBuffer)
| Mute
| Unmute
| Room_event (ev : room_event)
| Data_received (payload : list Byte.byte)
    (participant : option RemoteParticipant).

Definition step (o : op) : M unit :=
  match o with
  | Start env startCallConfig => startCall env startCallConfig
  | Stop => stopCall
  | Send env audioBuffer => sendAudioBuffer env audioBuffer
  | Mute => mute
  | Unmute => unmute
  | Room_event ev => roomEvent ev
  | Data_received payload participant =>
      handleDataEvents decode JSON_parse payload participant
  end.

(** One after the other, each from the client the one before left behind,
    whether it returned or threw: the calls made and the last client. *)
Fixpoint run (ops : list op) (st : RetellWebClient)
    : list event * RetellWebClient :=
  match ops with
  | [] => ([], st)
  | o :: rest =>
      let r := step o st in
      let (l, st') := run rest (final r) in
      (map snd (log r) ++ l, st')
  end.

End Lifetime.

(** * Observations

    What the properties below look at in a run: the chunks handed over,
    the calls made, the names published, the time waited; the reference
    functions they are compared with; and the concrete clients and
    collaborators used as examples. *)

(** The sample arrays of the buffers handed to [source.start], in order. *)
Definition started (e : entry) : list (list float32) :=
  match snd e with
  | SourceStart _ b => [channelData b]
  | _ => []
  end.

Definition chunks_sent (l : list entry) : list (list float32) :=
  flat_map started l.

(** Reference slicing: [fuel] consecutive slices of at most [c] samples. *)
Fixpoint slices (fuel c : nat) (data : list float32) : list (list float32) :=
  match fuel with
  | O => []
  | S fuel' => firstn c data :: slices fuel' c (skipn c data)
  end.

(** The chunk round [i] hands to [source.start]. *)
Definition chunk_at (env : SendEnv) (ab : AudioBuffer) (off : Z) : AudioBuffer :=
  let sz := Z.min (chunkSizeInSamples (sampleRate ab)) (samples ab - off) in
  mkAudioBuffer (sampleRate ab)
    (copy_samples (nan_encoding env) (Z.to_nat sz) 0 (Z.to_nat off)
       (channelData ab) (repeat 0 (Z.to_nat sz))).

(** The calls of one round that runs to its end. *)
Definition round_events (env : SendEnv) (ab : AudioBuffer) (i off : Z)
    : list event :=
  [ CreateBuffer (Z.min (chunkSizeInSamples (sampleRate ab)) (samples ab - off))
      (sampleRate ab);
    CreateBufferSource;
    SourceConnect;
    SourceStart (inject_Z (i * chunkDurationMs) / 1000) (chunk_at env ab off);
    Sleep (inject_Z chunkDurationMs) ].

(** The chunk sizes of a clip of [L] samples cut every [c] samples. *)
Definition chunk_sizes (L c : Z) : list nat :=
  repeat (Z.to_nat c) (Z.to_nat (L / c))
  ++ (if L mod c =? 0 then [] else [Z.to_nat (L mod c)]).

(** What a store through the usual float conversions leaves for a NaN: the
    pattern read with its quiet bit set. *)
Definition quiet_nan (x : option float32) : float32 :=
  match x with
  | Some v => Z.lor v 0x00400000
  | None => NaN32
  end.

(** The samples of [l] after a copy through a [Float32Array] store. *)
Definition copied (encoding : option float32 -> float32) (l : list float32)
    : list float32 :=
  map (fun v => stored encoding (Some v)) l.

(** The Number a sample reads as; [None] is NaN, whatever its encoding. *)
Definition sample_value (v : float32) : option float32 :=
  if is_nan32 v then None else Some v.

(** No sample of the clip is a NaN. *)
Definition nan_free (l : list float32) : bool :=
  forallb (fun v => negb (is_nan32 v)) l.

(** A connected simulation-mode client, a collaborator that never fails and
    a five-sample clip at 100 Hz (two samples per 20 ms). *)
Definition demo_client : RetellWebClient :=
  {| room := Some (mkRoom "room"); connected := true; isAgentTalking := false;
     analyzerComponent := None; captureAudioFrame := None;
     audioContext := Some (mkAudioContext running); audioTrackCounter := 0;
     currentAudioPublication := None |}.

Definition demo_env : SendEnv :=
  {| unpublish_ok := true; resume_ok := true; destination_ok := true;
     new_track := Some (mkTrack 1); publish_ok := true;
     chunk_ok := fun _ => true; nan_encoding := quiet_nan |}.

Definition demo_clip : AudioBuffer := mkAudioBuffer 100 [11; 22; 33; 44; 55].

(** A clip whose first sample is a signalling NaN. *)
Definition nan_clip : AudioBuffer := mkAudioBuffer 100 [0x7F800001; 11].

(** A client whose call was started with the microphone, not in simulation
    mode: connected, and without an audio context. *)
Definition microphone_client : RetellWebClient :=
  Eval vm_compute in
    final (startCall (mkStartEnv true None) (mkConfig "token" false false)
             new_RetellWebClient).

(** The calls made, without the state they were made in. *)
Definition events {A : Type} (r : result A) : list event := map snd (log r).

Definition count (p : event -> bool) (l : list event) : nat :=
  length (filter p l).

Definition is_unpublish (e : event) : bool :=
  match e with UnpublishTrack _ => true | _ => false end.

Definition is_publish (e : event) : bool :=
  match e with PublishTrack _ _ => true | _ => false end.

Definition is_emit (e : event) : bool :=
  match e with Emit _ _ => true | _ => false end.

Definition is_call_ended (e : event) : bool :=
  match e with Emit type _ => String.eqb type "call_ended" | _ => false end.

(** The calls of a [stopCall] that finds the client connected. *)
Definition teardown_events (c : RetellWebClient) : list event :=
  [Emit "call_ended" None]
  ++ match room c with Some _ => [RoomDisconnect] | None => [] end
  ++ match analyzerComponent c with Some _ => [AnalyzerCleanup] | None => [] end
  ++ match captureAudioFrame c with
     | Some id => if id =? 0 then [] else [CancelAnimationFrame id]
     | None => []
     end
  ++ match currentAudioPublication c with
     | Some _ => [ConsoleWarn "Error unpublishing track on stopCall"]
     | None => []
     end
  ++ match audioContext c with
     | Some ctx => if is_closed (state ctx) then [] else [ContextClose]
     | None => []
     end.

(** The client a [stopCall] that finds it connected leaves behind. *)
Definition torn_down (c : RetellWebClient) : RetellWebClient :=
  {| room := None; connected := false; isAgentTalking := false;
     analyzerComponent := None;
     captureAudioFrame :=
       if truthy_number (captureAudioFrame c) then None else captureAudioFrame c;
     audioContext :=
       match audioContext c with
       | Some ctx => if is_closed (state ctx) then Some ctx else None
       | None => None
       end;
     audioTrackCounter := 0;
     currentAudioPublication := None |}.

(** A client right after a successful send: connected, one publication
    recorded. *)
Definition published_client : RetellWebClient :=
  Eval vm_compute in final (sendAudioBuffer demo_env demo_clip demo_client).

(** The same client while the agent's audio is analysed and an animation
    frame is pending. *)
Definition analysed_client : RetellWebClient :=
  {| room := room published_client; connected := true; isAgentTalking := true;
     analyzerComponent := Some (mkAnalyzer 1); captureAudioFrame := Some 7;
     audioContext := audioContext published_client;
     audioTrackCounter := audioTrackCounter published_client;
     currentAudioPublication := currentAudioPublication published_client |}.

Definition not_connected_message : string :=
  "Cannot send audio buffer: not connected to call".

Definition no_context_message : string :=
  "AudioContext not initialized. Make sure to set simulationMode: true in startCall()".

(** The calls of the progressive loop and of its final wait. *)
Definition is_streaming (e : event) : bool :=
  match e with
  | CreateBuffer _ _ | CreateBufferSource | SourceConnect
  | SourceStart _ _ | Sleep _ => true
  | _ => false
  end.

(** An entry of the progressive sender's log: made in state [st], and a
    streaming call. *)
Definition streamed (st : RetellWebClient) (en : entry) : Prop :=
  fst en = st /\ is_streaming (snd en) = true.

(** Is [publishTrack] called: the guards pass, the context is or becomes
    running, and there are a destination, a track and a room. *)
Definition reaches_publish (env : SendEnv) (st : RetellWebClient) : bool :=
  connected st
  && match audioContext st with
     | Some ctx => negb (is_suspended (state ctx)) || resume_ok env
     | None => false
     end
  && destination_ok env
  && match new_track env with Some _ => true | None => false end
  && match room st with Some _ => true | None => false end.

(** No publication is recorded when [publishTrack] is called. *)
Definition publishes_onto_nothing (en : entry) : Prop :=
  is_publish (snd en) = true -> currentAudioPublication (fst en) = None.

(** The names given to [publishTrack], in order. *)
Definition published_name (e : event) : list string :=
  match e with
  | PublishTrack _ trackName => [trackName]
  | _ => []
  end.

Definition published_names (l : list event) : list string :=
  flat_map published_name l.

(** A session's sends, one after the other: the calls made and the client
    left behind. *)
Fixpoint session (sends : list (SendEnv * AudioBuffer)) (st : RetellWebClient)
    : list event * RetellWebClient :=
  match sends with
  | [] => ([], st)
  | (env, ab) :: rest =>
      let r := sendAudioBuffer env ab st in
      let (l, st') := session rest (final r) in
      (events r ++ l, st')
  end.

(** A session of three sends: the first fails at [publishTrack], the other
    two go through. *)
Definition demo_session : list (SendEnv * AudioBuffer) :=
  [ (mkSendEnv true true true (Some (mkTrack 1)) false (fun _ => true) quiet_nan,
     demo_clip);
    (demo_env, demo_clip);
    (mkSendEnv false true true (Some (mkTrack 2)) true (fun _ => true) quiet_nan,
     demo_clip) ].

(** The least time, in whole milliseconds, that a call keeps the method
    waiting: a timer never fires early, and it drops the fraction of its
    delay. *)
Definition min_wait (e : event) : Z :=
  match e with
  | Sleep ms => Qfloor ms
  | _ => 0
  end.

Definition waited (l : list event) : Z :=
  fold_right (fun e acc => min_wait e + acc) 0 l.

(** The calls made after the first [publishTrack]. *)
Fixpoint after_publish (l : list event) : list event :=
  match l with
  | [] => []
  | e :: l' => if is_publish e then l' else after_publish l'
  end.

Definition is_start (e : event) : bool :=
  match e with SourceStart _ _ => true | _ => false end.

(** The samples left for the last chunk once the chunks before it are cut:
    the clip less [numChunks - 1] chunks of full size. *)
Definition last_chunk_samples (ab : AudioBuffer) : Z :=
  let c := chunkSizeInSamples (sampleRate ab) in
  samples ab - (ceil_div (samples ab) c - 1) * c.

(** The last chunk's own time, in milliseconds. *)
Definition last_chunk_ms (ab : AudioBuffer) : Q :=
  inject_Z (last_chunk_samples ab) / inject_Z (sampleRate ab) * 1000.

(** The time the specification has a send take from the publish on, in
    milliseconds: the settle delay, 20 ms for each chunk, and the tail, the
    last chunk's own time with a margin of 100 ms. *)
Definition specified_wait (ab : AudioBuffer) : Q :=
  inject_Z settleDelayMs
  + inject_Z (chunkDurationMs
              * ceil_div (samples ab) (chunkSizeInSamples (sampleRate ab)))
  + (last_chunk_ms ab + 100).

(** The same with the chunks counted at their own time, which adds up to
    the clip's duration. *)
Definition specified_wait_of_clip (ab : AudioBuffer) : Q :=
  inject_Z settleDelayMs + duration ab * 1000 + (last_chunk_ms ab + 100).

(** 475 samples of silence at 24000 Hz: one chunk, of 19.79 ms. *)
Definition short_clip : AudioBuffer := mkAudioBuffer 24000 (repeat 0 475).

(** The calls of the teardown sequence: disconnecting the audio graph
    nodes and stopping the media track. *)
Definition is_teardown (e : event) : bool :=
  match e with
  | SourceDisconnect | DestinationDisconnect | TrackStop _ => true
  | _ => false
  end.

(** The send rejects, and no step of the teardown was made. *)
Definition rejected_without_teardown (r : result unit) : Prop :=
  (exists e, outcome r = Throw e) /\ count is_teardown (events r) = 0%nat.

(** The send rejects with [e], and no step of the teardown was made. *)
Definition rejected_with (e : exn) (r : result unit) : Prop :=
  outcome r = Throw e /\ count is_teardown (events r) = 0%nat.

(** Does a send get to look at the track of its destination: the guards
    pass, the context is or becomes running, and there is a destination. *)
Definition reaches_track (env : SendEnv) (st : RetellWebClient) : bool :=
  connected st
  && match audioContext st with
     | Some ctx => negb (is_suspended (state ctx)) || resume_ok env
     | None => false
     end
  && destination_ok env.

(** One of the clip's chunks cannot be scheduled. *)
Definition unschedulable (env : SendEnv) (ab : AudioBuffer) : Prop :=
  exists k,
    0 <= k < ceil_div (samples ab) (chunkSizeInSamples (sampleRate ab))
    /\ chunk_ok env k = false.

(** The send rejects, after the teardown was made. *)
Definition rejected_after_teardown (r : result unit) : Prop :=
  (exists e, outcome r = Throw e)
  /\ In DestinationDisconnect (events r)
  /\ exists t, In (TrackStop t) (events r).

(** An environment in which [publishTrack] rejects, and one in which the
    second chunk cannot be scheduled. *)
Definition publish_fails_env : SendEnv :=
  {| unpublish_ok := true; resume_ok := true; destination_ok := true;
     new_track := Some (mkTrack 1); publish_ok := false;
     chunk_ok := fun _ => true; nan_encoding := quiet_nan |}.

Definition chunk_fails_env : SendEnv :=
  {| unpublish_ok := true; resume_ok := true; destination_ok := true;
     new_track := Some (mkTrack 1); publish_ok := true;
     chunk_ok := fun i => negb (i =? 1); nan_encoding := quiet_nan |}.

(** Playback that ends on its own, with a [cleanup] that goes through. *)
Definition demo_play_env : WholeBuffer.PlayEnv :=
  WholeBuffer.mkPlayEnv [WholeBuffer.onended] true.

(** The last [n] calls. *)
Definition lastn (n : nat) (l : list event) : list event :=
  skipn (length l - n) l.

(** The calls of [cleanup] when nothing in it throws. *)
Definition cleanup_calls (t : MediaStreamTrack) : list event :=
  [ClearTimeout; SourceDisconnect; DestinationDisconnect; TrackStop t].

Definition timeout_message : string := "Audio buffer playback timeout".

(** The claim as the specification has it: whenever creating the track,
    publishing or scheduling fails, the send rejects after the teardown
    was made, in both variants. *)
Definition teardown_unconditional : Prop :=
  forall env penv ab st,
    connected st = true -> audioContext st <> None ->
    new_track env = None \/ publish_ok env = false
    \/ (chunk_ok env 0 = false /\ 0 < samples ab /\ 0 < sampleRate ab) ->
    rejected_after_teardown (sendAudioBuffer env ab st)
    /\ rejected_after_teardown (WholeBuffer.sendAudioBuffer env penv ab st).

Definition known_types : list string :=
  [ "update"; "metadata"; "agent_start_talking"; "agent_stop_talking";
    "node_transition" ]%string.

(** The [event_type] a parsed payload declares, when it is an object that
    has one and it is a string. *)
Definition declared_type (v : json) : option string :=
  match v with
  | JObject fields =>
      match lookup "event_type" fields with
      | Some (JString s) => Some s
      | _ => None
      end
  | _ => None
  end.

(** A stand-in for [JSON.parse] that knows two documents. *)
Definition toy_parse (s : string) : option json :=
  if String.eqb s "null" then Some JNull
  else if String.eqb s "42" then Some (JNumber 42)
  else None.

Definition server : option RemoteParticipant := Some (mkParticipant "server").

(** The buffers handed to [source.start], each with the time it is
    scheduled at. *)
Definition started_at (e : entry) : list (Q * AudioBuffer) :=
  match snd e with
  | SourceStart when b => [(when, b)]
  | _ => []
  end.

Definition schedule (l : list entry) : list (Q * AudioBuffer) :=
  flat_map started_at l.

(** [(i * chunkDurationMs) / 1000]: where round [i] is scheduled, in
    seconds after the start. *)
Definition playOffset (i : Z) : Q := inject_Z (i * chunkDurationMs) / 1000.

Definition is_warning (e : event) : bool :=
  match e with ConsoleWarn _ => true | _ => false end.

(** The calls made, the warnings left out. *)
Definition but_warnings (l : list event) : list event :=
  filter (fun e => negb (is_warning e)) l.

(** The environment [env] with the answer of [unpublishTrack] set. *)
Definition with_unpublish (b : bool) (env : SendEnv) : SendEnv :=
  {| unpublish_ok := b; resume_ok := resume_ok env;
     destination_ok := destination_ok env; new_track := new_track env;
     publish_ok := publish_ok env; chunk_ok := chunk_ok env;
     nan_encoding := nan_encoding env |}.

(** Does a send get to [audioTrackCounter++]: as [reaches_publish], but the
    room is not looked at yet. *)
Definition counts_up (env : SendEnv) (st : RetellWebClient) : bool :=
  connected st
  && match audioContext st with
     | Some ctx => negb (is_suspended (state ctx)) || resume_ok env
     | None => false
     end
  && destination_ok env
  && match new_track env with Some _ => true | None => false end.

Definition is_clear_timeout (e : event) : bool :=
  match e with ClearTimeout => true | _ => false end.

Definition is_track_stop (e : event) : bool :=
  match e with TrackStop _ => true | _ => false end.

(** Does [startCall] get to [this.connected = true]: the room connects
    and, in simulation mode, the audio context is built. *)
Definition start_succeeds (env : StartEnv) (cfg : StartCallConfig) : bool :=
  connect_ok env
  && (negb (simulationMode cfg)
      || match new_context env with Some _ => true | None => false end).

Definition is_emit_of (type : string) (e : event) : bool :=
  match e with Emit type' _ => String.eqb type' type | _ => false end.

Definition is_room_disconnect (e : event) : bool :=
  match e with RoomDisconnect => true | _ => false end.

(** The room object [startCall] builds. *)
Definition new_room : option Room := Some (mkRoom "room").


(** What holds of a client between two method calls: a connected client
    has its room, and a client that is not connected has no publication
    recorded and its track counter at 0. *)
Definition consistent (st : RetellWebClient) : Prop :=
  (connected st = true -> room st <> None)
  /\ (connected st = false ->
      currentAudioPublication st = None /\ audioTrackCounter st = 0).

(** Does the room event end the call. *)
Definition ends_call (ev : room_event) : bool :=
  match ev with
  | ParticipantDisconnected _ => false
  | HangupTimerFired | Disconnected => true
  end.

(** A simulation-mode start in which everything works. *)
Definition demo_start_env : StartEnv := mkStartEnv true (Some (mkAudioContext suspended)).

Definition demo_config : StartCallConfig := mkConfig "token" true false.

(** Is the type one of the two that carry no argument. *)
Definition is_talking_type (s : string) : bool :=
  String.eqb s "agent_start_talking" || String.eqb s "agent_stop_talking".

(** The notification for a payload [v] of known type [s]. *)
Definition notification (s : string) (v : json) : event :=
  Emit s (if is_talking_type s then None else Some v).

(** [isAgentTalking] after a payload of type [s]. *)
Definition talking_after (s : string) (before : bool) : bool :=
  if String.eqb s "agent_start_talking" then true
  else if String.eqb s "agent_stop_talking" then false
  else before.

(** A stand-in for [JSON.parse] that also knows one control message. *)
Definition demo_parse (s : string) : option json :=
  if String.eqb s "start"
  then Some (JObject [("event_type"%string, JString "agent_start_talking")])
  else toy_parse s.

(** A chunk whose playback ends, though disconnecting its nodes throws. *)
Definition demo_chunk_env : ChunkEnv := mkChunkEnv true false.

(** * Properties *)

(** ** The chunker *)

Lemma NaN32_is_nan : is_nan32 NaN32 = true.
Proof. reflexivity. Qed.

Lemma as_nan_is_nan p : is_nan32 (as_nan p) = true.
Proof.
  unfold as_nan. destruct (is_nan32 p) eqn:E; [exact E | exact NaN32_is_nan].
Qed.

(** A store keeps the Number: a sample that is not a NaN keeps its pattern,
    a NaN stays a NaN. *)
Lemma stored_value enc v : sample_value (stored enc (Some v)) = sample_value v.
Proof.
  unfold sample_value, stored. destruct (is_nan32 v) eqn:E.
  - now rewrite as_nan_is_nan.
  - now rewrite E.
Qed.

Lemma stored_number enc v : is_nan32 v = false -> stored enc (Some v) = v.
Proof. intros E. unfold stored. now rewrite E. Qed.

Lemma copied_length enc l : length (copied enc l) = length l.
Proof. apply length_map. Qed.


Lemma copied_values enc l :
  map sample_value (copied enc l) = map sample_value l.
Proof.
  unfold copied. rewrite map_map. apply map_ext. intros v. apply stored_value.
Qed.

Lemma copied_nan_free enc l : nan_free l = true -> copied enc l = l.
Proof.
  unfold nan_free, copied. induction l as [|v l IH]; cbn [forallb map]; auto.
  intros H. apply andb_prop in H. destruct H as [Hv Hl].
  rewrite (IH Hl), stored_number; auto.
  now destruct (is_nan32 v).
Qed.

Lemma write_length enc j x a : length (write enc j x a) = length a.
Proof.
  revert j; induction a as [|y a IH]; intros [|j]; simpl; auto.
Qed.

Lemma write_firstn enc j x a k :
  (k <= j)%nat -> firstn k (write enc j x a) = firstn k a.
Proof.
  revert j k; induction a as [|y a IH]; intros [|j] [|k] H; simpl; auto;
    try lia.
  f_equal; apply IH; lia.
Qed.

Lemma write_nth enc j x a d :
  (j < length a)%nat -> nth j (write enc j x a) d = stored enc x.
Proof.
  revert j; induction a as [|y a IH]; intros [|j] H; simpl in *; auto; try lia.
  apply IH; lia.
Qed.

Lemma firstn_succ_nth (a : list float32) k d :
  (k < length a)%nat -> firstn (S k) a = firstn k a ++ [nth k a d].
Proof.
  revert k; induction a as [|x a IH]; intros [|k] H; simpl in *; auto; try lia.
  f_equal; apply IH; lia.
Qed.

Lemma skipn_cons_nth (a : list float32) k d :
  (k < length a)%nat -> skipn k a = nth k a d :: skipn (S k) a.
Proof.
  revert k; induction a as [|x a IH]; intros [|k] H; simpl in *; auto; try lia.
  apply IH; lia.
Qed.

(** The inner loop stores [src[offset .. offset + fuel)] over
    [dst[j .. j + fuel)], one store per sample and in order, and leaves the
    first [j] cells alone. *)
Lemma copy_samples_spec enc fuel : forall j offset src dst,
  (length dst = j + fuel)%nat ->
  (offset + j + fuel <= length src)%nat ->
  copy_samples enc fuel j offset src dst
  = firstn j dst ++ copied enc (firstn fuel (skipn (offset + j) src)).
Proof.
  induction fuel as [|fuel IH]; intros j offset src dst Hd Hs; simpl.
  - rewrite app_nil_r. apply eq_sym, firstn_all2. lia.
  - rewrite IH by (rewrite ?write_length; lia).
    rewrite (firstn_succ_nth (write _ _ _ _) j NaN32)
      by (rewrite write_length; lia).
    rewrite write_firstn by lia.
    rewrite write_nth by lia.
    rewrite <- app_assoc. f_equal.
    assert (Hsk : skipn (offset + j) src
                  = nth (offset + j) src NaN32 :: skipn (offset + S j) src).
    { replace (offset + S j)%nat with (S (offset + j)) by lia.
      apply skipn_cons_nth. lia. }
    rewrite Hsk. unfold read.
    rewrite (nth_error_nth' src NaN32) by lia.
    reflexivity.
Qed.

Lemma copy_chunk enc n offset src :
  (offset + n <= length src)%nat ->
  copy_samples enc n 0 offset src (repeat 0 n)
  = copied enc (firstn n (skipn offset src)).
Proof.
  intros H. rewrite copy_samples_spec.
  - simpl. now rewrite Nat.add_0_r.
  - now rewrite repeat_length.
  - lia.
Qed.

Lemma firstn_add (a b : nat) : forall l : list float32,
  firstn (a + b) l = firstn a l ++ firstn b (skipn a l).
Proof.
  induction a as [|a IH]; intros [|x l]; simpl; auto.
  - now rewrite firstn_nil.
  - now rewrite IH.
Qed.

Lemma concat_slices n c : forall data,
  concat (slices n c data) = firstn (n * c) data.
Proof.
  induction n as [|n IH]; intros data; simpl; auto.
  now rewrite IH, firstn_add.
Qed.

(** The sizes of the slices of a clip of [q * c + r] samples, [r < c]. *)
Lemma slices_lengths q : forall c r data,
  (r < c)%nat -> length data = (q * c + r)%nat ->
  map (@length float32) (slices (q + (if (r =? 0)%nat then 0 else 1)) c data)
  = repeat c q ++ (if (r =? 0)%nat then [] else [r]).
Proof.
  induction q as [|q IH]; intros c r data Hr Hlen; simpl in *.
  - destruct (Nat.eqb_spec r 0) as [->|Hn]; simpl; auto.
    rewrite firstn_all2 by lia. now rewrite Hlen.
  - rewrite length_firstn, Nat.min_l by lia. f_equal.
    apply IH; auto. rewrite length_skipn. lia.
Qed.

Lemma numChunks_ceil_div totalSamples chunkSize :
  chunkSize <> 0 ->
  numChunks totalSamples chunkSize = Finite (ceil_div totalSamples chunkSize).
Proof.
  intros H. unfold numChunks, ceil_div.
  destruct (Z.eqb_spec chunkSize 0); congruence.
Qed.

(** [ceil_div a b] is the least [n] with [a <= n * b]. *)
Lemma ceil_div_spec a b :
  0 < b -> (ceil_div a b - 1) * b < a <= ceil_div a b * b.
Proof.
  intros Hb. unfold ceil_div.
  pose proof (Z.div_mod (- a) b ltac:(lia)).
  pose proof (Z.mod_pos_bound (- a) b Hb). nia.
Qed.

Lemma ceil_div_quot_rem a b :
  0 <= a -> 0 < b ->
  ceil_div a b = a / b + (if a mod b =? 0 then 0 else 1).
Proof.
  intros Ha Hb.
  pose proof (ceil_div_spec a b Hb).
  pose proof (Z.div_mod a b ltac:(lia)).
  pose proof (Z.mod_pos_bound a b Hb).
  destruct (Z.eqb_spec (a mod b) 0); nia.
Qed.

(** ** Running the loop *)

(** Unfold the monad's combinators; arithmetic is left alone. *)
Ltac run :=
  repeat (progress
    (cbv beta iota zeta delta
       [bind try_catch ret throw never perform this assign when
        log final outcome localParticipant the_audioContext createBuffer];
     cbn [app negb])).

(** One round of the loop: it either throws or runs its five calls, leaves
    the client as it was, and goes on with the next round. *)
Lemma chunk_loop_round env ab fuel i off st :
  let sz := Z.min (chunkSizeInSamples (sampleRate ab)) (samples ab - off) in
  chunk_loop env ab (S fuel) i off st =
  match audioContext st with
  | None =>
      mkResult [] st (Throw (TypeError "Cannot read properties of undefined"))
  | Some _ =>
      if sz <=? 0 then
        mkResult [(st, CreateBuffer sz (sampleRate ab))] st (Throw NotSupportedError)
      else if negb (chunk_ok env i) then
        mkResult [(st, CreateBuffer sz (sampleRate ab))] st (Throw (Failure "chunk"))
      else
        match chunk_loop env ab fuel (i + 1) (off + sz) st with
        | mkResult l c o =>
            mkResult (map (pair st) (round_events env ab i off) ++ l) c o
        end
  end.
Proof.
  intros sz. cbn [chunk_loop]. fold sz. run.
  destruct (audioContext st) eqn:Hctx; [|reflexivity].
  destruct (sz <=? 0); [reflexivity|].
  destruct (chunk_ok env i); [|reflexivity].
  run. rewrite Hctx. run.
  destruct (chunk_loop env ab fuel (i + 1) (off + sz) st) as [l c' [[]|e|]];
    reflexivity.
Qed.

Lemma chunk_loop_final env ab fuel : forall i off st,
  final (chunk_loop env ab fuel i off st) = st.
Proof.
  induction fuel as [|fuel IH]; intros i off st; [reflexivity|].
  rewrite chunk_loop_round.
  destruct (audioContext st); [|reflexivity].
  destruct (_ <=? 0); [reflexivity|].
  destruct (negb _); [reflexivity|].
  specialize (IH (i + 1) (off + Z.min (chunkSizeInSamples (sampleRate ab)) (samples ab - off)) st).
  destruct (chunk_loop env ab fuel _ _ st); assumption.
Qed.

(** With a chunk size of zero the first round already throws, so the loop
    against [Infinity] never gets to a second test. *)
Lemma chunk_loop_zero_size env ab fuel st :
  chunkSizeInSamples (sampleRate ab) = 0 ->
  exists l e, chunk_loop env ab (S fuel) 0 0 st = mkResult l st (Throw e).
Proof.
  intros Hc. rewrite chunk_loop_round, Hc.
  destruct (audioContext st); [|eauto].
  assert (H : (Z.min 0 (samples ab - 0) <=? 0) = true).
  { apply Z.leb_le. lia. }
  rewrite H. eauto.
Qed.

Lemma chunks_sent_app l l' :
  chunks_sent (l ++ l') = chunks_sent l ++ chunks_sent l'.
Proof. apply flat_map_app. Qed.

Lemma samples_nonneg ab : 0 <= samples ab.
Proof. unfold samples. lia. Qed.

(** A loop that runs to its end has handed over the reference slices, each
    sample stored once. *)
Lemma chunk_loop_sent env ab fuel : forall i off st,
  0 <= off -> 0 < chunkSizeInSamples (sampleRate ab) ->
  outcome (chunk_loop env ab fuel i off st) = Return tt ->
  chunks_sent (log (chunk_loop env ab fuel i off st))
  = map (copied (nan_encoding env))
      (slices fuel (Z.to_nat (chunkSizeInSamples (sampleRate ab)))
         (skipn (Z.to_nat off) (channelData ab))).
Proof.
  induction fuel as [|fuel IH]; intros i off st Hoff Hc; [reflexivity|].
  rewrite chunk_loop_round.
  set (c := chunkSizeInSamples (sampleRate ab)) in *.
  set (sz := Z.min c (samples ab - off)).
  destruct (audioContext st); [|discriminate].
  destruct (Z.leb_spec sz 0) as [Hle|Hsz]; [discriminate|].
  destruct (negb _); [discriminate|].
  specialize (IH (i + 1) (off + sz) st ltac:(lia) Hc).
  destruct (chunk_loop env ab fuel (i + 1) (off + sz) st) as [l c' o].
  cbn [outcome log] in *. intros Ho.
  rewrite chunks_sent_app, (IH Ho).
  cbn [slices]. unfold round_events, chunks_sent. cbn [map flat_map started snd app].
  unfold chunk_at. fold c. fold sz. cbn [channelData].
  assert (Hlen : (Z.to_nat off + Z.to_nat sz <= length (channelData ab))%nat).
  { unfold samples in *. lia. }
  rewrite copy_chunk by exact Hlen.
  f_equal; [f_equal|f_equal].
  - destruct (Z.min_spec c (samples ab - off)) as [[_ E]|[_ E]]; fold sz in E.
    + now rewrite E.
    + rewrite !firstn_all2; auto; rewrite length_skipn; unfold samples in *; lia.
  - rewrite skipn_skipn.
    destruct (Z.min_spec c (samples ab - off)) as [[_ E]|[_ E]]; fold sz in E.
    + rewrite E. f_equal. f_equal. lia.
    + rewrite !skipn_all2; auto; unfold samples in *; lia.
Qed.


(** [sendAudioProgressively] is the loop followed by the final wait. *)
Lemma sendAudioProgressively_run env ab st :
  sendAudioProgressively env ab st =
  match audioContext st with
  | None =>
      mkResult [] st (Throw (TypeError "Cannot read properties of undefined"))
  | Some _ =>
      match chunk_loop env ab
              (iterations (numChunks (samples ab)
                             (chunkSizeInSamples (sampleRate ab)))) 0 0 st with
      | mkResult l c (Return _) =>
          mkResult (l ++ [(c, Sleep (finalChunkDuration ab + 100))]) c (Return tt)
      | r => r
      end
  end.
Proof.
  unfold sendAudioProgressively. run.
  destruct (audioContext st); [|reflexivity].
  run.
  destruct (chunk_loop env ab _ 0 0 st) as [l c [[]|e|]]; reflexivity.
Qed.

Lemma slices_chunk_sizes data c :
  0 < c ->
  let L := Z.of_nat (length data) in
  map (@length float32) (slices (Z.to_nat (ceil_div L c)) (Z.to_nat c) data)
  = chunk_sizes L c.
Proof.
  intros Hc L. unfold chunk_sizes.
  assert (HL : 0 <= L) by (unfold L; lia).
  pose proof (Z.div_mod L c ltac:(lia)) as Hdm.
  pose proof (Z.mod_pos_bound L c Hc) as Hr.
  pose proof (Z.div_pos L c HL Hc) as Hq.
  rewrite ceil_div_quot_rem by lia.
  replace (Z.to_nat (L / c + (if L mod c =? 0 then 0 else 1)))
    with (Z.to_nat (L / c) + (if (Z.to_nat (L mod c) =? 0)%nat then 0 else 1))%nat.
  2:{ destruct (Z.eqb_spec (L mod c) 0) as [E|E].
      - rewrite E. cbn. lia.
      - destruct (Nat.eqb_spec (Z.to_nat (L mod c)) 0); lia. }
  rewrite slices_lengths.
  - f_equal. destruct (Z.eqb_spec (L mod c) 0) as [E|E].
    + now rewrite E.
    + destruct (Nat.eqb_spec (Z.to_nat (L mod c)) 0); [lia|reflexivity].
  - lia.
  - unfold L in *. nia.
Qed.

Lemma chunkSize_nonneg R : 0 < R -> 0 <= chunkSizeInSamples R.
Proof.
  intros H. unfold chunkSizeInSamples, chunkDurationMs.
  apply Z.div_pos; lia.
Qed.

Lemma chunkSize_pos R : 50 <= R -> 0 < chunkSizeInSamples R.
Proof.
  intros H. unfold chunkSizeInSamples, chunkDurationMs.
  apply Z.div_str_pos. lia.
Qed.

(** What a sender that runs to its end has handed to [source.start]. *)
Lemma progressive_sent env ab st :
  0 < sampleRate ab ->
  outcome (sendAudioProgressively env ab st) = Return tt ->
  (0 < chunkSizeInSamples (sampleRate ab) \/ samples ab = 0) /\
  chunks_sent (log (sendAudioProgressively env ab st))
  = map (copied (nan_encoding env))
      (slices (Z.to_nat (ceil_div (samples ab) (chunkSizeInSamples (sampleRate ab))))
         (Z.to_nat (chunkSizeInSamples (sampleRate ab))) (channelData ab)).
Proof.
  intros HR. rewrite sendAudioProgressively_run.
  pose proof (chunkSize_nonneg _ HR) as Hc0.
  set (c := chunkSizeInSamples (sampleRate ab)) in *.
  destruct (audioContext st) eqn:Hctx; [|discriminate].
  destruct (Z.eqb_spec c 0) as [E|E].
  - unfold numChunks. rewrite E. cbn [Z.eqb].
    destruct (Z.eqb_spec (samples ab) 0) as [EL|EL].
    + intros _. cbn [iterations chunk_loop]. run. rewrite EL.
      split; [now right|reflexivity].
    + cbn [iterations].
      destruct (chunk_loop_zero_size env ab O st E) as (l & e & Hthrow).
      rewrite Hthrow. discriminate.
  - assert (Hc : 0 < c) by lia.
    rewrite numChunks_ceil_div by exact E. cbn [iterations].
    pose proof (chunk_loop_sent env ab
                  (Z.to_nat (ceil_div (samples ab) c)) 0 0 st
                  ltac:(lia) Hc) as Hsent.
    destruct (chunk_loop env ab _ 0 0 st) as [l c' [[]|e|]];
      try discriminate.
    intros _. split; [now left|].
    cbn [log outcome] in *.
    rewrite chunks_sent_app, (Hsent eq_refl). cbn. apply app_nil_r.
Qed.


Lemma copied_lengths enc (l : list (list float32)) :
  map (@length float32) (map (copied enc) l) = map (@length float32) l.
Proof.
  rewrite map_map. apply map_ext. intros x. apply copied_length.
Qed.

Lemma last_map_length (l : list (list float32)) :
  length (last l []) = last (map (@length float32) l) O.
Proof.
  induction l as [|x [|y l] IH]; auto.
Qed.

Lemma last_repeat (x : nat) n d : (0 < n)%nat -> last (repeat x n) d = x.
Proof.
  induction n as [|[|n] IH]; intros H; try lia; auto.
  change (last (repeat x (S n)) d = x). apply IH. lia.
Qed.



(** C2: the chunks handed over by the progressive sender, concatenated in
    the order in which they were sent, are the clip's samples: every sample
    is stored exactly once, in its place, so nothing is dropped, duplicated
    or reordered.  The copy [chunkChannelData[j] = channelData[offset + j]]
    goes through a Number, so what is reproduced is each sample's Number; a
    NaN sample stays a NaN in whichever encoding the store picks, and a clip
    without NaNs comes out bit for bit. *)
Theorem progressive_round_trip env ab st :
  0 < sampleRate ab ->
  outcome (sendAudioProgressively env ab st) = Return tt ->
  let sent := concat (chunks_sent (log (sendAudioProgressively env ab st))) in
  sent = copied (nan_encoding env) (channelData ab)
  /\ map sample_value sent = map sample_value (channelData ab)
  /\ (nan_free (channelData ab) = true -> sent = channelData ab).
Proof.
  intros HR Hret sent.
  destruct (progressive_sent env ab st HR Hret) as [Hc Hsent].
  assert (Hcopy : sent = copied (nan_encoding env) (channelData ab)).
  { unfold sent. rewrite Hsent. unfold copied at 1.
    rewrite <- concat_map, concat_slices.
    unfold copied. f_equal.
    apply firstn_all2.
    destruct Hc as [Hc|H0].
    - pose proof (ceil_div_spec (samples ab) _ Hc) as Hspec.
      unfold samples in *. nia.
    - unfold samples in H0. lia. }
  split; [exact Hcopy|]. rewrite Hcopy. split.
  - apply copied_values.
  - apply copied_nan_free.
Qed.

Lemma progressive_round_trip_witness :
  let sent :=
    concat (chunks_sent (log (sendAudioProgressively demo_env nan_clip demo_client))) in
  sent = [0x7FC00001; 11]
  /\ map sample_value sent = [None; Some 11]
  /\ concat (chunks_sent (log (sendAudioProgressively demo_env demo_clip demo_client)))
     = [11; 22; 33; 44; 55].
Proof.
  split; [reflexivity|]. split.
  - exact (proj1 (proj2 (progressive_round_trip demo_env nan_clip demo_client
                           eq_refl eq_refl))).
  - exact (proj2 (proj2 (progressive_round_trip demo_env demo_clip demo_client
                           eq_refl eq_refl)) eq_refl).
Defined.

(** ** [stopCall] *)

Ltac run_stop :=
  cbv beta iota zeta delta
    [stopCall bind try_catch ret throw perform this assign when
     localParticipant events log final outcome map snd app negb
     truthy_number is_closed state
     set_room set_connected set_isAgentTalking set_analyzerComponent
     set_captureAudioFrame set_audioContext set_audioTrackCounter
     set_currentAudioPublication
     room connected isAgentTalking analyzerComponent captureAudioFrame
     audioContext audioTrackCounter currentAudioPublication
     teardown_events torn_down].

Lemma stopCall_disconnected st :
  connected st = false -> stopCall st = mkResult [] st (Return tt).
Proof.
  destruct st as [r cn t an fr ctx k pub]. cbn [connected]. intros ->.
  reflexivity.
Qed.

Lemma stopCall_connected st :
  connected st = true ->
  events (stopCall st) = teardown_events st
  /\ final (stopCall st) = torn_down st
  /\ outcome (stopCall st) = Return tt.
Proof.
  destruct st as [r cn t an fr ctx k pub]. cbn [connected]. intros ->.
  destruct r, an, fr as [id|], pub, ctx as [[[]]|];
    run_stop; try destruct (id =? 0); run_stop; repeat split; reflexivity.
Qed.

Lemma teardown_events_NoDup st : NoDup (teardown_events st).
Proof.
  destruct st as [r cn t an fr ctx k pub]. unfold teardown_events.
  cbn [room analyzerComponent captureAudioFrame currentAudioPublication
       audioContext].
  destruct r, an, fr as [id|], pub, ctx as [[[]]|];
    try destruct (id =? 0); cbn [app is_closed state];
    repeat (constructor; [cbn [In]; intuition discriminate|]);
    constructor.
Qed.

Lemma teardown_events_call_ended st :
  count is_call_ended (teardown_events st) = 1%nat.
Proof.
  destruct st as [r cn t an fr ctx k pub]. unfold teardown_events.
  cbn [room analyzerComponent captureAudioFrame currentAudioPublication
       audioContext].
  destruct r, an, fr as [id|], pub, ctx as [[[]]|];
    try destruct (id =? 0); reflexivity.
Qed.

Lemma teardown_events_unpublish st :
  count is_unpublish (teardown_events st) = 0%nat.
Proof.
  destruct st as [r cn t an fr ctx k pub]. unfold teardown_events.
  cbn [room analyzerComponent captureAudioFrame currentAudioPublication
       audioContext].
  destruct r, an, fr as [id|], pub, ctx as [[[]]|];
    try destruct (id =? 0); reflexivity.
Qed.

(** [stopCall] twice in succession.  The second call makes no call and
    changes nothing, so two calls do what one does; on a connected client
    that is the calls of [teardown_events], with [call_ended] emitted once
    and no call made twice; on a client that is not connected, such as one
    that never was, [stopCall] has no effect at all. *)
Lemma stopCall_twice st :
  let once := stopCall st in
  let twice := stopCall (final once) in
  twice = mkResult [] (final once) (Return tt)
  /\ events once ++ events twice = events once
  /\ NoDup (events once ++ events twice)
  /\ (connected st = true ->
        events once ++ events twice = teardown_events st
        /\ count is_call_ended (events once ++ events twice) = 1%nat
        /\ final twice = torn_down st
        /\ audioTrackCounter (final twice) = 0
        /\ currentAudioPublication (final twice) = None)
  /\ (connected st = false -> once = mkResult [] st (Return tt)).
Proof.
  intros once twice.
  assert (Hoff : connected (final once) = false).
  { destruct (connected st) eqn:Hc.
    - destruct (stopCall_connected st Hc) as (_ & Hf & _).
      subst once. now rewrite Hf.
    - subst once. now rewrite (stopCall_disconnected st Hc). }
  assert (Htwice : twice = mkResult [] (final once) (Return tt))
    by (apply stopCall_disconnected; exact Hoff).
  assert (Hev : events once ++ events twice = events once).
  { rewrite Htwice. apply app_nil_r. }
  split; [exact Htwice|]. split; [exact Hev|]. split; [|split].
  - rewrite Hev. destruct (connected st) eqn:Hc.
    + destruct (stopCall_connected st Hc) as (He & _). subst once.
      rewrite He. apply teardown_events_NoDup.
    + subst once. rewrite (stopCall_disconnected st Hc). constructor.
  - intros Hc. destruct (stopCall_connected st Hc) as (He & Hf & _).
    fold once in He, Hf. rewrite Hev, He, Htwice. cbn [final]. rewrite Hf.
    repeat split. apply teardown_events_call_ended.
  - intros Hc. apply stopCall_disconnected. exact Hc.
Qed.

(** C7 (where the code departs from it): [stopCall] twice in succession on
    a connected client that has a publication recorded, an analyser and a
    pending animation frame.  The second call is the no-op the claim
    describes, and [call_ended], the room's disconnect, the cleaning of the
    analyser and of the animation frame, and the closing of the context
    occur once each.  The unpublishing of the stored publication, which the
    claim counts among the effects that occur exactly once, does not occur:
    over the two calls [unpublishTrack] is called zero times, and the
    warning of the [catch] is logged in its place.  A [stopCall] on a client
    that never was connected has no effect. *)
Theorem stopCall_twice_unpublishes_nothing :
  let once := stopCall analysed_client in
  let twice := stopCall (final once) in
  connected analysed_client = true
  /\ currentAudioPublication analysed_client
     = Some (mkPublication (mkTrack 1) "simulated_audio_0")
  /\ twice = mkResult [] (final once) (Return tt)
  /\ events once ++ events twice
     = [ Emit "call_ended" None; RoomDisconnect; AnalyzerCleanup;
         CancelAnimationFrame 7;
         ConsoleWarn "Error unpublishing track on stopCall"; ContextClose ]
  /\ count is_unpublish (events once ++ events twice) = 0%nat
  /\ final twice = new_RetellWebClient
  /\ stopCall new_RetellWebClient = mkResult [] new_RetellWebClient (Return tt).
Proof.
  repeat split.
Qed.

(** No [stopCall] ever calls [unpublishTrack]: by the time it gets to the
    stored publication it has deleted [this.room], so reading
    [this.room.localParticipant] throws inside the [try] and only the
    warning is left. *)
Lemma stopCall_never_unpublishes st :
  count is_unpublish (events (stopCall st)) = 0%nat.
Proof.
  destruct (connected st) eqn:Hc.
  - destruct (stopCall_connected st Hc) as (He & _). rewrite He.
    apply teardown_events_unpublish.
  - now rewrite (stopCall_disconnected st Hc).
Qed.

(** C8 (where the code departs from it): [stopCall] on a connected client
    with a recorded publication.  The claim has the unpublish request reach
    [unpublishTrack]; the code makes no such call and logs the warning of its
    [catch] instead.  The bookkeeping is cleared all the same. *)
Theorem stopCall_unpublish_not_reached :
  connected published_client = true
  /\ currentAudioPublication published_client
     = Some (mkPublication (mkTrack 1) "simulated_audio_0")
  /\ events (stopCall published_client)
     = [ Emit "call_ended" None; RoomDisconnect;
         ConsoleWarn "Error unpublishing track on stopCall"; ContextClose ]
  /\ count is_unpublish (events (stopCall published_client)) = 0%nat
  /\ final (stopCall published_client) = new_RetellWebClient.
Proof.
  repeat split.
Qed.

(** ** [sendAudioBuffer] *)

Ltac run_send :=
  cbv beta iota zeta delta
    [sendAudioBuffer sendAudioBuffer_body
     WholeBuffer.sendAudioBuffer WholeBuffer.sendAudioBuffer_body
     bind try_catch ret throw never perform this assign when
     localParticipant the_audioContext events log final outcome negb
     is_suspended is_closed state
     set_room set_connected set_isAgentTalking set_analyzerComponent
     set_captureAudioFrame set_audioContext set_audioTrackCounter
     set_currentAudioPublication
     room connected isAgentTalking analyzerComponent captureAudioFrame
     audioContext audioTrackCounter currentAudioPublication
     unpublish_ok resume_ok destination_ok new_track publish_ok track];
  cbn [app map snd fst].

(** C5: a [sendAudioBuffer] on a client that is not connected, or that has
    no audio context because the call was not started in simulation mode,
    rejects with an error that says so, before any collaborator is called
    and with the client left exactly as it was: no track, publication or
    context is created, and the stored publication, the track counter and
    the connected flag keep their values.  Both variants behave so. *)
Theorem sendAudioBuffer_precondition env penv ab st :
  connected st = false \/ audioContext st = None ->
  let message :=
    if connected st then no_context_message else not_connected_message in
  sendAudioBuffer env ab st = mkResult [] st (Throw (Error message))
  /\ WholeBuffer.sendAudioBuffer env penv ab st
     = mkResult [] st (Throw (Error message)).
Proof.
  destruct st as [r cn t an fr ctx k pub]. cbn [connected audioContext].
  intros [->| ->].
  - split; reflexivity.
  - destruct cn; split; reflexivity.
Qed.

Lemma sendAudioBuffer_precondition_witness :
  sendAudioBuffer demo_env demo_clip new_RetellWebClient
  = mkResult [] new_RetellWebClient (Throw (Error not_connected_message))
  /\ sendAudioBuffer demo_env demo_clip microphone_client
     = mkResult [] microphone_client (Throw (Error no_context_message)).
Proof.
  split.
  - exact (proj1 (sendAudioBuffer_precondition demo_env demo_play_env
                    demo_clip new_RetellWebClient (or_introl eq_refl))).
  - exact (proj1 (sendAudioBuffer_precondition demo_env demo_play_env
                    demo_clip microphone_client (or_intror eq_refl))).
Defined.

Lemma chunk_loop_log env ab fuel : forall i off st,
  Forall (streamed st) (log (chunk_loop env ab fuel i off st)).
Proof.
  induction fuel as [|fuel IH]; intros i off st; [constructor|].
  rewrite chunk_loop_round.
  destruct (audioContext st); [|constructor].
  destruct (_ <=? 0); [repeat constructor|].
  destruct (negb _); [repeat constructor|].
  specialize (IH (i + 1)
                (off + Z.min (chunkSizeInSamples (sampleRate ab)) (samples ab - off))
                st).
  destruct (chunk_loop env ab fuel _ _ st) as [l c o]. cbn [log] in *.
  apply Forall_app. split; [repeat constructor|exact IH].
Qed.

Lemma progressive_log env ab st :
  Forall (streamed st) (log (sendAudioProgressively env ab st)).
Proof.
  rewrite sendAudioProgressively_run.
  destruct (audioContext st); [|constructor].
  pose proof (chunk_loop_log env ab
                (iterations (numChunks (samples ab)
                               (chunkSizeInSamples (sampleRate ab)))) 0 0 st) as Hl.
  pose proof (chunk_loop_final env ab
                (iterations (numChunks (samples ab)
                               (chunkSizeInSamples (sampleRate ab)))) 0 0 st) as Hf.
  destruct (chunk_loop env ab _ 0 0 st) as [l c [[]|e|]]; cbn [log final] in *;
    try exact Hl.
  apply Forall_app. split; [exact Hl|]. subst c. repeat constructor.
Qed.

Lemma progressive_final env ab st :
  final (sendAudioProgressively env ab st) = st.
Proof.
  rewrite sendAudioProgressively_run.
  destruct (audioContext st); [|reflexivity].
  pose proof (chunk_loop_final env ab
                (iterations (numChunks (samples ab)
                               (chunkSizeInSamples (sampleRate ab)))) 0 0 st) as Hf.
  destruct (chunk_loop env ab _ 0 0 st) as [l c [[]|e|]]; exact Hf.
Qed.

Lemma chunk_loop_settles env ab fuel : forall i off st,
  outcome (chunk_loop env ab fuel i off st) <> Pending.
Proof.
  induction fuel as [|fuel IH]; intros i off st; [discriminate|].
  rewrite chunk_loop_round.
  destruct (audioContext st); [|discriminate].
  destruct (_ <=? 0); [discriminate|].
  destruct (negb _); [discriminate|].
  specialize (IH (i + 1)
                (off + Z.min (chunkSizeInSamples (sampleRate ab)) (samples ab - off))
                st).
  destruct (chunk_loop env ab fuel _ _ st) as [l c o]. exact IH.
Qed.

(** The progressive sender always settles. *)
Lemma progressive_settles env ab st :
  outcome (sendAudioProgressively env ab st) <> Pending.
Proof.
  rewrite sendAudioProgressively_run.
  destruct (audioContext st); [|discriminate].
  pose proof (chunk_loop_settles env ab
                (iterations (numChunks (samples ab)
                               (chunkSizeInSamples (sampleRate ab)))) 0 0 st) as Hs.
  destruct (chunk_loop env ab _ 0 0 st) as [l c [[]|e|]];
    (discriminate || exact Hs).
Qed.

Lemma count_app p l l' : count p (l ++ l') = (count p l + count p l')%nat.
Proof. unfold count. now rewrite filter_app, length_app. Qed.

Lemma streamed_count st l p :
  (forall e, is_streaming e = true -> p e = false) ->
  Forall (streamed st) l -> count p (map snd l) = 0%nat.
Proof.
  intros Hp. induction 1 as [|[c e] l [_ Hs] _ IH]; [reflexivity|].
  unfold count in *. cbn [map snd filter]. cbn [snd] in Hs.
  now rewrite (Hp e Hs).
Qed.

Lemma streamed_publishes_onto_nothing st l :
  Forall (streamed st) l -> Forall publishes_onto_nothing l.
Proof.
  apply Forall_impl. intros [c e] [_ Hs] Hp. cbn [snd] in *.
  destruct e; discriminate.
Qed.

(** Split on whatever the next stuck test of a send is. *)
Ltac split_send :=
  repeat (run_send;
    match goal with
    | |- context [match ?x with _ => _ end] => is_var x; destruct x
    | |- context [sendAudioProgressively ?e ?a ?s] =>
        let Hl := fresh "Hl" in
        let Hf := fresh "Hf" in
        let Hs := fresh "Hs" in
        pose proof (progressive_log e a s) as Hl;
        pose proof (progressive_final e a s) as Hf;
        pose proof (progressive_settles e a s) as Hs;
        destruct (sendAudioProgressively e a s) as [? ? [[]|?|]];
        cbn [log final outcome] in Hl, Hf, Hs;
        [ | | exfalso; apply Hs; reflexivity ];
        clear Hs; subst
    end);
  run_send.

Lemma sendAudioBuffer_publishes_onto_nothing env ab st :
  Forall publishes_onto_nothing (log (sendAudioBuffer env ab st)).
Proof.
  destruct st as [r cn t an fr ctx k pub].
  destruct env as [uok rok dok nt pok cok enc].
  split_send.
  all: repeat first
    [ apply Forall_nil
    | apply Forall_cons; [intros H; try discriminate H; reflexivity|]
    | apply Forall_app; split
    | eapply streamed_publishes_onto_nothing; eassumption ].
Qed.

Lemma count_cons p e l :
  count p (e :: l) = ((if p e then 1 else 0) + count p l)%nat.
Proof. unfold count. cbn [filter]. destruct (p e); reflexivity. Qed.

Lemma streamed_no_publish st l :
  Forall (streamed st) l -> count is_publish (map snd l) = 0%nat.
Proof.
  apply streamed_count. intros [] H; (discriminate H || reflexivity).
Qed.

Lemma sendAudioBuffer_publish_count env ab st :
  count is_publish (events (sendAudioBuffer env ab st))
  = if reaches_publish env st then 1%nat else 0%nat.
Proof.
  destruct st as [r cn t an fr ctx k pub].
  destruct env as [uok rok dok nt pok cok enc].
  unfold reaches_publish.
  split_send.
  all: repeat first [ rewrite count_cons | rewrite map_app
                    | rewrite count_app | progress cbn [map snd] ];
       try (erewrite streamed_no_publish by eassumption); reflexivity.
Qed.

Lemma sendAudioBuffer_resolved_reaches env ab st :
  outcome (sendAudioBuffer env ab st) = Return tt ->
  reaches_publish env st = true.
Proof.
  destruct st as [r cn t an fr ctx k pub].
  destruct env as [uok rok dok nt pok cok enc].
  unfold reaches_publish.
  split_send; intros H; (discriminate H || reflexivity).
Qed.

Lemma sendAudioBuffer_retires_first env ab st pub :
  connected st = true -> audioContext st <> None -> room st <> None ->
  currentAudioPublication st = Some pub ->
  hd_error (events (sendAudioBuffer env ab st))
  = Some (UnpublishTrack (track pub)).
Proof.
  destruct st as [r cn t an fr ctx k p].
  destruct env as [uok rok dok nt pok cok enc].
  cbn [connected audioContext room currentAudioPublication].
  intros -> Hctx Hr ->.
  destruct ctx; [|congruence]. destruct r; [|congruence].
  split_send; reflexivity.
Qed.

(** C3: at most one simulated publication is recorded for a session, and a
    send retires it before it publishes.  In every run of [sendAudioBuffer]
    the client has no recorded publication at the moment [publishTrack] is
    called; [publishTrack] is called once when the send gets as far as a
    track (always so when it resolves) and not at all otherwise; and a send
    that finds a recorded publication starts by asking the room to
    unpublish its track. *)
Theorem one_publication_at_a_time env ab st :
  let r := sendAudioBuffer env ab st in
  Forall publishes_onto_nothing (log r)
  /\ count is_publish (events r)
     = (if reaches_publish env st then 1%nat else 0%nat)
  /\ (outcome r = Return tt -> count is_publish (events r) = 1%nat)
  /\ (forall pub,
        connected st = true -> audioContext st <> None -> room st <> None ->
        currentAudioPublication st = Some pub ->
        hd_error (events r) = Some (UnpublishTrack (track pub))).
Proof.
  intros r. split; [|split; [|split]].
  - apply sendAudioBuffer_publishes_onto_nothing.
  - apply sendAudioBuffer_publish_count.
  - intros H. unfold r. rewrite sendAudioBuffer_publish_count.
    now rewrite (sendAudioBuffer_resolved_reaches env ab st H).
  - intros pub. apply sendAudioBuffer_retires_first.
Qed.

Lemma one_publication_at_a_time_witness :
  count is_publish (events (sendAudioBuffer demo_env demo_clip published_client))
  = 1%nat
  /\ hd_error (events (sendAudioBuffer demo_env demo_clip published_client))
     = Some (UnpublishTrack (mkTrack 1)).
Proof.
  split.
  - exact (proj1 (proj2 (proj2
             (one_publication_at_a_time demo_env demo_clip published_client)))
             eq_refl).
  - refine (proj2 (proj2 (proj2
             (one_publication_at_a_time demo_env demo_clip published_client)))
             (mkPublication (mkTrack 1) "simulated_audio_0")
             eq_refl _ _ eq_refl); discriminate.
Defined.

(** ** Track names over a session *)

Lemma number_toString_inj a b :
  number_toString a = number_toString b -> a = b.
Proof.
  unfold number_toString. intros H.
  apply (f_equal NilEmpty.int_of_string) in H.
  rewrite !NilEmpty.isi in H. injection H as H.
  apply (f_equal Z.of_int) in H. now rewrite !DecimalZ.of_to in H.
Qed.

Lemma append_inj_r (p x y : string) :
  (p ++ x)%string = (p ++ y)%string -> x = y.
Proof.
  induction p as [|a p IH]; cbn [append]; intros H; [exact H|].
  injection H as H. exact (IH H).
Qed.

Lemma simulated_audio_inj a b :
  simulated_audio a = simulated_audio b -> a = b.
Proof.
  unfold simulated_audio. intros H.
  apply number_toString_inj. exact (append_inj_r _ _ _ H).
Qed.

Lemma js_incr_exact n : n < 2 ^ 53 -> js_incr n = n + 1.
Proof.
  intros H. unfold js_incr.
  destruct (Z.ltb_spec n (2 ^ 53)); [reflexivity|lia].
Qed.

Lemma js_incr_le n : n <= js_incr n.
Proof.
  unfold js_incr. destruct (n <? 2 ^ 53); lia.
Qed.

Lemma streamed_no_names st l :
  Forall (streamed st) l -> published_names (map snd l) = [].
Proof.
  induction 1 as [|[c e] l [_ Hs] _ IH]; [reflexivity|].
  cbn [map snd published_names flat_map] in *.
  unfold published_names in IH. rewrite IH.
  destruct e; try discriminate Hs; reflexivity.
Qed.

Lemma published_names_app l l' :
  published_names (l ++ l') = published_names l ++ published_names l'.
Proof. apply flat_map_app. Qed.

Lemma published_names_cons e l :
  published_names (e :: l) = published_name e ++ published_names l.
Proof. reflexivity. Qed.

(** The one name a send publishes under is built from the counter it
    finds. *)
Lemma sendAudioBuffer_names env ab st :
  published_names (events (sendAudioBuffer env ab st))
  = if reaches_publish env st
    then [simulated_audio (audioTrackCounter st)] else [].
Proof.
  destruct st as [r cn t an fr ctx k pub].
  destruct env as [uok rok dok nt pok cok enc].
  unfold reaches_publish.
  split_send.
  all: repeat first [ rewrite published_names_cons | rewrite map_app
                    | rewrite published_names_app | progress cbn [map snd] ];
       try (erewrite streamed_no_names by eassumption); reflexivity.
Qed.

(** A send leaves the counter alone or moves it on by one; it moves it on
    whenever it publishes. *)
Lemma sendAudioBuffer_counter env ab st :
  let k := audioTrackCounter st in
  let k' := audioTrackCounter (final (sendAudioBuffer env ab st)) in
  (k' = k \/ k' = js_incr k)
  /\ (reaches_publish env st = true -> k' = js_incr k).
Proof.
  destruct st as [r cn t an fr ctx k pub].
  destruct env as [uok rok dok nt pok cok enc].
  unfold reaches_publish.
  split_send; cbn [audioTrackCounter];
    (split; [auto|intros H; (discriminate H || reflexivity)]).
Qed.

(** The names published over a session are those of consecutive counter
    values, each used once, from the value the session starts with. *)
Lemma session_names sends : forall st,
  0 <= audioTrackCounter st ->
  audioTrackCounter st + Z.of_nat (length sends) <= 2 ^ 53 ->
  exists ks,
    published_names (fst (session sends st)) = map simulated_audio ks
    /\ NoDup ks
    /\ Forall (fun i => audioTrackCounter st <= i
                        < audioTrackCounter (snd (session sends st))) ks
    /\ audioTrackCounter st <= audioTrackCounter (snd (session sends st))
       <= audioTrackCounter st + Z.of_nat (length sends).
Proof.
  induction sends as [|[env ab] rest IH]; intros st Hk Hbound.
  - exists []. cbn. repeat split; try constructor; lia.
  - cbn [session length] in *.
    pose proof (sendAudioBuffer_names env ab st) as Hn.
    destruct (sendAudioBuffer_counter env ab st) as [Hk1 Hreach].
    set (r := sendAudioBuffer env ab st) in *.
    rewrite (js_incr_exact (audioTrackCounter st)) in Hk1, Hreach by lia.
    specialize (IH (final r) ltac:(lia) ltac:(lia)).
    destruct IH as (ks & Hnames & Hnd & Hrange & Hle).
    destruct (session rest (final r)) as [l st'] eqn:Hs. cbn [fst snd] in *.
    rewrite published_names_app, Hn, Hnames.
    destruct (reaches_publish env st).
    + specialize (Hreach eq_refl).
      exists (audioTrackCounter st :: ks). cbn [map app].
      split; [reflexivity|]. split; [|split].
      * constructor; [|exact Hnd]. intros Hin.
        rewrite Forall_forall in Hrange. specialize (Hrange _ Hin). lia.
      * constructor; [lia|].
        eapply Forall_impl; [|exact Hrange]. cbn beta. intros; lia.
      * lia.
    + exists ks. cbn [app]. split; [reflexivity|]. split; [exact Hnd|].
      split; [|lia].
      eapply Forall_impl; [|exact Hrange]. cbn beta. intros; lia.
Qed.

Lemma NoDup_map_simulated_audio ks :
  NoDup ks -> NoDup (map simulated_audio ks).
Proof.
  induction 1 as [|k ks Hnin Hnd IH]; cbn [map]; constructor; [|exact IH].
  rewrite in_map_iff. intros (k' & Heq & Hin).
  apply simulated_audio_inj in Heq. now subst.
Qed.

(** C9: within a session every simulated publication gets a track name of
    its own: the names are [simulated_audio_<n>] for the successive values
    of a counter that only moves up, so none is used twice (as long as the
    counter stays among the integers a number holds exactly).  A send never
    lowers the counter; [stopCall] on a connected client puts it back
    to 0. *)
Theorem track_names_unique sends st :
  0 <= audioTrackCounter st ->
  audioTrackCounter st + Z.of_nat (length sends) <= 2 ^ 53 ->
  NoDup (published_names (fst (session sends st)))
  /\ (forall name, In name (published_names (fst (session sends st))) ->
        exists n, audioTrackCounter st <= n
                  < audioTrackCounter (snd (session sends st))
                  /\ name = simulated_audio n)
  /\ (forall env ab c,
        audioTrackCounter c
        <= audioTrackCounter (final (sendAudioBuffer env ab c)))
  /\ (forall c, connected c = true ->
        audioTrackCounter (final (stopCall c)) = 0).
Proof.
  intros Hk Hbound.
  destruct (session_names sends st Hk Hbound) as (ks & Hn & Hnd & Hr & _).
  split; [|split; [|split]].
  - rewrite Hn. apply NoDup_map_simulated_audio. exact Hnd.
  - intros name Hin. rewrite Hn, in_map_iff in Hin.
    destruct Hin as (n & <- & Hin). exists n. split; [|reflexivity].
    rewrite Forall_forall in Hr. exact (Hr n Hin).
  - intros env ab c.
    destruct (sendAudioBuffer_counter env ab c) as [[H|H] _]; rewrite H.
    + lia.
    + apply js_incr_le.
  - intros c Hc. destruct (stopCall_connected c Hc) as (_ & Hf & _).
    now rewrite Hf.
Qed.

Lemma track_names_unique_witness :
  NoDup (published_names (fst (session demo_session demo_client)))
  /\ published_names (fst (session demo_session demo_client))
     = ["simulated_audio_0"; "simulated_audio_1"; "simulated_audio_2"]%string
  /\ audioTrackCounter (final (stopCall (snd (session demo_session demo_client))))
     = 0.
Proof.
  pose proof (track_names_unique demo_session demo_client) as H.
  assert (H0 : 0 <= audioTrackCounter demo_client) by (cbn; lia).
  assert (H1 : audioTrackCounter demo_client
               + Z.of_nat (length demo_session) <= 2 ^ 53)
    by (vm_compute; discriminate).
  destruct (H H0 H1) as (Hnd & _ & _ & Hstop).
  split; [exact Hnd|]. split; [reflexivity|].
  apply Hstop. reflexivity.
Defined.

(** ** Timing *)

Lemma waited_app l l' : waited (l ++ l') = waited l + waited l'.
Proof.
  unfold waited. induction l as [|e l IH]; cbn [app fold_right].
  - reflexivity.
  - rewrite IH. lia.
Qed.

Lemma after_publish_app pre e post :
  count is_publish pre = 0%nat -> is_publish e = true ->
  after_publish (pre ++ e :: post) = post.
Proof.
  intros Hpre He. induction pre as [|x pre IH]; cbn [app after_publish].
  - now rewrite He.
  - rewrite count_cons in Hpre. destruct (is_publish x); [discriminate|].
    apply IH. exact Hpre.
Qed.

Lemma chunk_loop_waited env ab fuel : forall i off st,
  outcome (chunk_loop env ab fuel i off st) = Return tt ->
  waited (map snd (log (chunk_loop env ab fuel i off st)))
  = chunkDurationMs * Z.of_nat fuel.
Proof.
  induction fuel as [|fuel IH]; intros i off st; [reflexivity|].
  rewrite chunk_loop_round.
  destruct (audioContext st); [|discriminate].
  destruct (_ <=? 0); [discriminate|].
  destruct (negb _); [discriminate|].
  specialize (IH (i + 1)
                (off + Z.min (chunkSizeInSamples (sampleRate ab)) (samples ab - off))
                st).
  destruct (chunk_loop env ab fuel _ _ st) as [l c o]. cbn [log outcome] in *.
  intros Ho. rewrite map_app, waited_app, (IH Ho), map_map. cbn [map snd].
  unfold round_events, waited. cbn [map fold_right min_wait].
  rewrite Qfloor_Z. lia.
Qed.

Lemma Qfloor_ms (a R k : Z) :
  0 < R ->
  Qfloor (inject_Z a / inject_Z R * 1000 + inject_Z k) = a * 1000 / R + k.
Proof.
  intros HR.
  assert (E : inject_Z a / inject_Z R * 1000 + inject_Z k
              == inject_Z (a * 1000 + k * R) / inject_Z R).
  { rewrite inject_Z_plus, !inject_Z_mult. field.
    intros H. apply (Qeq_bool_neq (inject_Z R) 0); [|exact H].
    destruct R; try lia; reflexivity. }
  rewrite (Qfloor_comp _ _ E), <- Zdiv_Qdiv.
  now rewrite Z.div_add by lia.
Qed.

Lemma Qms_le (a R m : Z) :
  0 < R -> a * 1000 <= m * R ->
  (inject_Z a / inject_Z R * 1000 <= inject_Z m)%Q.
Proof.
  intros HR H. destruct R as [|p|p]; try lia.
  unfold Qle, Qdiv, Qmult, Qinv, inject_Z. cbn [Qnum Qden].
  cbn. lia.
Qed.

(** As [split_send], keeping the equation of the progressive sender. *)
Ltac split_send_eqn :=
  repeat (run_send;
    match goal with
    | |- context [match ?x with _ => _ end] => is_var x; destruct x
    | |- context [sendAudioProgressively ?e ?a ?s] =>
        let Hp := fresh "Hp" in
        destruct (sendAudioProgressively e a s) as [? ? [[]|?|]] eqn:Hp
    end);
  run_send.

(** What a send that resolves does from [publishTrack] on: the settle
    delay, the progressive sender from its first call to its last, and the
    teardown. *)
Lemma sendAudioBuffer_resolved_events env ab st :
  outcome (sendAudioBuffer env ab st) = Return tt ->
  exists t st',
    outcome (sendAudioProgressively env ab st') = Return tt
    /\ after_publish (events (sendAudioBuffer env ab st))
       = Sleep (inject_Z settleDelayMs)
         :: events (sendAudioProgressively env ab st')
            ++ [DestinationDisconnect; TrackStop t]
    /\ count is_start (events (sendAudioBuffer env ab st))
       = count is_start (events (sendAudioProgressively env ab st')).
Proof.
  destruct st as [r cn t an fr ctx k pub].
  destruct env as [uok rok dok nt pok cok enc].
  split_send_eqn; intros H; try discriminate H.
  all: match goal with
       | Hp : sendAudioProgressively _ _ ?s = _ |- _ =>
           exists m, s; rewrite Hp
       end;
       unfold events; cbn [log outcome map snd after_publish is_publish];
       rewrite !map_app; cbn [map snd];
       repeat first [ rewrite count_cons | rewrite count_app ];
       cbn [is_start]; repeat split;
       cbn [Nat.add]; rewrite ?Nat.add_0_r; reflexivity.
Qed.

Lemma progressive_waited env ab st :
  0 < sampleRate ab ->
  outcome (sendAudioProgressively env ab st) = Return tt ->
  waited (events (sendAudioProgressively env ab st))
  = chunkDurationMs
    * Z.of_nat (iterations (numChunks (samples ab)
                              (chunkSizeInSamples (sampleRate ab))))
    + (finalChunkSamples (samples ab) (chunkSizeInSamples (sampleRate ab))
       * 1000 / sampleRate ab + 100).
Proof.
  intros HR. unfold events. rewrite sendAudioProgressively_run.
  destruct (audioContext st); [|discriminate].
  pose proof (chunk_loop_waited env ab
                (iterations (numChunks (samples ab)
                               (chunkSizeInSamples (sampleRate ab)))) 0 0 st) as Hw.
  destruct (chunk_loop env ab _ 0 0 st) as [l c [[]|e|]]; try discriminate.
  intros _. cbn [log outcome] in *.
  rewrite map_app, waited_app. unfold entry in *.
  rewrite (Hw eq_refl). cbn [map snd].
  unfold waited at 1. cbn [fold_right min_wait]. unfold finalChunkDuration.
  change 100%Q with (inject_Z 100).
  rewrite Qfloor_ms by exact HR. lia.
Qed.

(** The waits of the progressive sender cover the clip: [n] rounds of
    20 ms and the final chunk once more are at least the clip's length in
    time, because a chunk of [floor (R * 20 / 1000)] samples lasts at most
    20 ms. *)
Lemma waits_cover_clip (L R : Z) :
  0 <= L -> 0 < R ->
  let c := chunkSizeInSamples R in
  0 < c \/ L = 0 ->
  let n := Z.of_nat (iterations (numChunks L c)) in
  let f := finalChunkSamples L c in
  n = ceil_div L c
  /\ 0 <= f * 1000 / R
  /\ L * 1000 <= (chunkDurationMs * n + f * 1000 / R) * R.
Proof.
  intros HL HR c Hc n f.
  assert (Hc0 : 0 <= c) by (apply chunkSize_nonneg; exact HR).
  assert (Hcap : c * 1000 <= R * chunkDurationMs).
  { unfold c, chunkSizeInSamples.
    pose proof (Z.mul_div_le (R * chunkDurationMs) 1000 ltac:(lia)). lia. }
  unfold chunkDurationMs in *.
  destruct (Z.eqb_spec c 0) as [E|E].
  - assert (L = 0) by lia. subst L.
    unfold n, f, numChunks, finalChunkSamples, ceil_div. rewrite E.
    cbn. lia.
  - assert (Hcpos : 0 < c) by lia.
    assert (Hn : n = ceil_div L c).
    { unfold n. rewrite numChunks_ceil_div by exact E. cbn [iterations].
      pose proof (ceil_div_spec L c Hcpos). rewrite Z2Nat.id; nia. }
    pose proof (ceil_div_quot_rem L c HL Hcpos) as Hqr.
    pose proof (Z.div_mod L c ltac:(lia)) as Hdm.
    pose proof (Z.mod_pos_bound L c Hcpos) as Hr.
    assert (Hf : f = if L mod c =? 0 then c else L mod c).
    { unfold f, finalChunkSamples.
      destruct (Z.eqb_spec c 0); [lia|].
      rewrite Z.rem_mod_nonneg by lia. reflexivity. }
    assert (Hf0 : 0 <= f) by (rewrite Hf; destruct (L mod c =? 0); lia).
    assert (Hsum : L = (n - 1) * c + f).
    { rewrite Hn, Hqr, Hf. destruct (Z.eqb_spec (L mod c) 0); nia. }
    pose proof (Z.div_mod (f * 1000) R ltac:(lia)) as Hfd.
    pose proof (Z.mod_pos_bound (f * 1000) R HR) as Hfr.
    pose proof (Z.div_pos (f * 1000) R ltac:(lia) HR) as Hfq.
    split; [exact Hn|]. split; [exact Hfq|].
    assert (Hn1 : 0 <= n - 1 \/ (n = 0 /\ L = 0)).
    { pose proof (ceil_div_spec L c Hcpos). nia. }
    destruct Hn1 as [Hn1|[Hn0 HL0]].
    + assert ((n - 1) * (c * 1000) <= (n - 1) * (R * 20)) by nia.
      nia.
    + nia.
Qed.

(** The size the sender takes for the final chunk, by arithmetic. *)
Lemma finalChunkSamples_last (L c : Z) :
  0 <= L -> 0 <= c -> 0 < c \/ L = 0 ->
  finalChunkSamples L c = L - (ceil_div L c - 1) * c.
Proof.
  intros HL Hc0 Hc. unfold finalChunkSamples.
  destruct (Z.eqb_spec c 0) as [E|E].
  - assert (L = 0) by lia. subst. reflexivity.
  - assert (Hcpos : 0 < c) by lia.
    rewrite Z.rem_mod_nonneg by lia.
    rewrite (ceil_div_quot_rem L c HL Hcpos).
    pose proof (Z.div_mod L c ltac:(lia)) as Hdm.
    pose proof (Z.mod_pos_bound L c Hcpos) as Hr.
    destruct (Z.eqb_spec (L mod c) 0); nia.
Qed.

(** C6, as stated, does not hold: a timer drops the fraction of its delay,
    and the last wait, the final chunk's time and 100 ms, has one.  The
    475-sample clip is one chunk of 19.79 ms; its send resolves once 339 ms
    of timers have run from the publish on, less than the 339.79 ms of
    settle delay, one chunk and tail, and less than the 339.58 ms that come
    of counting the chunk at its own time. *)
Lemma resolves_a_fraction_early :
  let r := sendAudioBuffer demo_env short_clip demo_client in
  outcome r = Return tt
  /\ waited (after_publish (events r)) = 339
  /\ (inject_Z (waited (after_publish (events r))) < specified_wait short_clip)%Q
  /\ (inject_Z (waited (after_publish (events r)))
      < specified_wait_of_clip short_clip)%Q.
Proof.
  cbv zeta. split; [|split; [|split]]; vm_compute; reflexivity.
Qed.

(** C6, amended: a send that resolves has waited, from [publishTrack] on,
    the settle delay, 20 ms for each chunk and the whole milliseconds of the
    last wait, which is the final chunk's own time and 100 ms.  That is
    within a millisecond of the settle delay, the chunks and the tail taken
    together, never more, and it is at least the settle delay, the clip's
    duration and 100 ms.  The settle delay is the first thing after
    [publishTrack], before any chunk is started, and its value, 200 ms, lies
    between 150 and 400. *)
Theorem resolves_after_playback env ab st :
  0 < sampleRate ab ->
  outcome (sendAudioBuffer env ab st) = Return tt ->
  let ev := events (sendAudioBuffer env ab st) in
  let n := ceil_div (samples ab) (chunkSizeInSamples (sampleRate ab)) in
  (exists post,
      after_publish ev = Sleep (inject_Z settleDelayMs) :: post
      /\ count is_start ev = count is_start post)
  /\ 150 <= settleDelayMs <= 400
  /\ waited (after_publish ev)
     = settleDelayMs + chunkDurationMs * n + Qfloor (last_chunk_ms ab + 100)
  /\ (specified_wait ab - 1 < inject_Z (waited (after_publish ev))
      <= specified_wait ab)%Q
  /\ (inject_Z settleDelayMs + duration ab * 1000 + 100
      <= inject_Z (waited (after_publish ev)))%Q
  /\ settleDelayMs + chunkDurationMs * n + 100 <= waited (after_publish ev).
Proof.
  intros HR Hret ev n.
  destruct (sendAudioBuffer_resolved_events env ab st Hret)
    as (t & st' & Hp & Hafter & Hstart).
  fold ev in Hafter, Hstart.
  destruct (progressive_sent env ab st' HR Hp) as [Hc _].
  pose proof (progressive_waited env ab st' HR Hp) as Hw.
  destruct (waits_cover_clip (samples ab) (sampleRate ab)
              (samples_nonneg ab) HR Hc) as (Hn & Hf & Hcover).
  fold n in Hn. rewrite Hn in Hw, Hcover.
  pose proof (finalChunkSamples_last (samples ab)
                (chunkSizeInSamples (sampleRate ab)) (samples_nonneg ab)
                (chunkSize_nonneg _ HR) Hc) as Hlast.
  change (finalChunkSamples (samples ab) (chunkSizeInSamples (sampleRate ab))
          = last_chunk_samples ab) in Hlast.
  rewrite Hlast in Hw, Hf, Hcover.
  set (tail := last_chunk_samples ab * 1000 / sampleRate ab) in *.
  assert (Htail : Qfloor (last_chunk_ms ab + 100) = tail + 100).
  { unfold last_chunk_ms. change 100%Q with (inject_Z 100).
    apply Qfloor_ms. exact HR. }
  assert (Hwaited : waited (after_publish ev)
                    = settleDelayMs + chunkDurationMs * n + (tail + 100)).
  { rewrite Hafter. change (Sleep (inject_Z settleDelayMs) :: ?l)
      with ([Sleep (inject_Z settleDelayMs)] ++ l).
    rewrite !waited_app, Hw. unfold waited. cbn [fold_right min_wait].
    rewrite Qfloor_Z. lia. }
  split; [|split; [|split; [|split; [|split]]]].
  - eexists. split; [exact Hafter|].
    rewrite Hstart, count_app. cbn. lia.
  - unfold settleDelayMs. lia.
  - rewrite Hwaited, Htail. reflexivity.
  - rewrite Hwaited, <- Htail. unfold specified_wait.
    pose proof (Qfloor_le (last_chunk_ms ab + 100)) as Hlo.
    pose proof (Qlt_floor (last_chunk_ms ab + 100)) as Hhi.
    rewrite !inject_Z_plus. rewrite inject_Z_plus in Hhi.
    change (inject_Z 1) with 1%Q in Hhi.
    fold n.
    set (x := (last_chunk_ms ab + 100)%Q) in *.
    set (fx := inject_Z (Qfloor x)) in *.
    set (a := inject_Z settleDelayMs).
    set (b := inject_Z (chunkDurationMs * n)).
    split; lra.
  - rewrite Hwaited, !inject_Z_plus.
    pose proof (Qms_le (samples ab) (sampleRate ab)
                  (chunkDurationMs * n + tail) HR Hcover) as Hq.
    unfold duration.
    change (inject_Z 100) with 100%Q.
    set (d := (inject_Z (samples ab) / inject_Z (sampleRate ab) * 1000)%Q) in *.
    rewrite inject_Z_plus in Hq. lra.
  - rewrite Hwaited. lia.
Qed.

Lemma resolves_after_playback_witness :
  waited (after_publish
            (events (sendAudioBuffer demo_env short_clip demo_client)))
  = 200 + 20 * 1 + Qfloor (last_chunk_ms short_clip + 100)
  /\ (inject_Z 200 + duration demo_clip * 1000 + 100
      <= inject_Z (waited (after_publish
           (events (sendAudioBuffer demo_env demo_clip demo_client)))))%Q
  /\ waited (after_publish
        (events (sendAudioBuffer demo_env demo_clip demo_client))) = 370.
Proof.
  split; [|split]; [| |reflexivity].
  - exact (proj1 (proj2 (proj2
             (resolves_after_playback demo_env short_clip demo_client
                eq_refl eq_refl)))).
  - exact (proj1 (proj2 (proj2 (proj2 (proj2
             (resolves_after_playback demo_env demo_clip demo_client
                eq_refl eq_refl)))))).
Defined.

(** ** Teardown *)

Lemma streamed_no_teardown st l :
  Forall (streamed st) l -> count is_teardown (map snd l) = 0%nat.
Proof.
  apply streamed_count. intros [] H; (discriminate H || reflexivity).
Qed.

(** A send that resolves ends with the teardown. *)
Lemma sendAudioBuffer_resolved_teardown env ab st :
  outcome (sendAudioBuffer env ab st) = Return tt ->
  exists pre t,
    events (sendAudioBuffer env ab st)
    = pre ++ [DestinationDisconnect; TrackStop t]
    /\ count is_teardown pre = 0%nat.
Proof.
  destruct st as [r cn t an fr ctx k pub].
  destruct env as [uok rok dok nt pok cok enc].
  split_send; intros H; try discriminate H.
  all: rewrite ?map_app; cbn [map snd]; rewrite !app_comm_cons;
       eexists _, _; split; [reflexivity|];
       repeat first [ rewrite count_cons | rewrite count_app ];
       erewrite streamed_no_teardown by eassumption; reflexivity.
Qed.

(** A send that does not resolve rejects, and has made no step of the
    teardown. *)
Lemma sendAudioBuffer_rejected_teardown env ab st :
  outcome (sendAudioBuffer env ab st) <> Return tt ->
  rejected_without_teardown (sendAudioBuffer env ab st).
Proof.
  destruct st as [r cn t an fr ctx k pub].
  destruct env as [uok rok dok nt pok cok enc].
  unfold rejected_without_teardown.
  split_send; intros H; try (exfalso; apply H; reflexivity).
  all: split; [eexists; reflexivity|];
       repeat first [ rewrite count_cons | rewrite map_app
                    | rewrite count_app | progress cbn [map snd] ];
       try (erewrite streamed_no_teardown by eassumption); reflexivity.
Qed.

(** Once [cleanup] has run, later callbacks do nothing. *)
Lemma fire_all_cleaned penv t cbs : forall s st,
  WholeBuffer.fire_all penv t cbs (WholeBuffer.mkPlayback None true s) st
  = mkResult [] st (Return (WholeBuffer.mkPlayback None true s)).
Proof.
  induction cbs as [|cb cbs IH]; intros s st; [reflexivity|].
  cbn [WholeBuffer.fire_all].
  unfold bind at 1.
  assert (E : WholeBuffer.fire penv t cb (WholeBuffer.mkPlayback None true s) st
              = mkResult [] st (Return (WholeBuffer.mkPlayback None true s))).
  { destruct cb; reflexivity. }
  rewrite E, IH. reflexivity.
Qed.

(** The promise settles with the first callback that fires. *)
Lemma playback_run penv t st :
  WholeBuffer.playback penv t st =
  match WholeBuffer.fires penv with
  | [] => mkResult [] st Pending
  | WholeBuffer.onended :: _ =>
      if WholeBuffer.teardown_ok penv then
        mkResult (map (pair st) (cleanup_calls t)) st (Return tt)
      else
        mkResult (map (pair st)
                    [ClearTimeout; SourceDisconnect;
                     ConsoleError "Error cleaning up audio buffer"])
          st (Throw (Failure "disconnect"))
  | WholeBuffer.safety_timeout :: _ =>
      if WholeBuffer.teardown_ok penv then
        mkResult (map (pair st) (ConsoleWarn timeout_message :: cleanup_calls t))
          st (Throw (Error timeout_message))
      else
        mkResult (map (pair st)
                    [ConsoleWarn timeout_message; ClearTimeout; SourceDisconnect;
                     ConsoleError "Error cleaning up audio buffer"])
          st (Throw (Failure "disconnect"))
  end.
Proof.
  destruct penv as [[|[] cbs] []]; cbn [WholeBuffer.fires WholeBuffer.teardown_ok];
    unfold WholeBuffer.playback; cbn [WholeBuffer.fires WholeBuffer.fire_all];
    try reflexivity.
  all: unfold bind at 1; unfold bind at 1.
  all: match goal with
       | |- context [WholeBuffer.fire ?pe ?t ?cb ?p ?s] =>
           let r := eval vm_compute in (WholeBuffer.fire pe t cb p s) in
           change (WholeBuffer.fire pe t cb p s) with r
       end.
  all: cbv beta iota; rewrite fire_all_cleaned; reflexivity.
Qed.

(** Split on whatever the next stuck test of a whole-buffer send is. *)
Ltac split_whole :=
  repeat (run_send;
    match goal with
    | |- context [match ?x with _ => _ end] => is_var x; destruct x
    | |- context [WholeBuffer.playback ?pe ?t ?s] =>
        rewrite (playback_run pe t s);
        cbv beta iota delta [WholeBuffer.fires WholeBuffer.teardown_ok]
    end);
  run_send.

Lemma whole_buffer_teardown env penv ab st :
  let w := WholeBuffer.sendAudioBuffer env penv ab st in
  (outcome w = Return tt ->
     exists t, lastn 3 (events w)
               = [SourceDisconnect; DestinationDisconnect; TrackStop t])
  /\ (outcome w = Throw (Error timeout_message) ->
        exists t, lastn 5 (events w)
                  = ConsoleWarn timeout_message :: cleanup_calls t)
  /\ (new_track env = None \/ publish_ok env = false ->
        rejected_without_teardown w).
Proof.
  destruct st as [r cn t an fr ctx k pub].
  destruct env as [uok rok dok nt pok cok enc].
  destruct penv as [cbs tok].
  unfold rejected_without_teardown.
  cbn [new_track publish_ok].
  split_whole.
  all: cbn [map snd cleanup_calls app].
  all: (split; [|split]); intros H;
       try discriminate H;
       try (destruct H as [H|H]; discriminate H);
       try (eexists; reflexivity);
       try (split; [eexists; reflexivity|reflexivity]).
Qed.

(** C4, as stated, does not hold: when [publishTrack] rejects, both
    variants reject with that failure without disconnecting the destination
    or stopping the track that they had created. *)
Lemma teardown_skipped_when_publish_fails :
  outcome (sendAudioBuffer publish_fails_env demo_clip demo_client)
  = Throw (Failure "publishTrack")
  /\ events (sendAudioBuffer publish_fails_env demo_clip demo_client)
     = [ CreateMediaStreamDestination;
         PublishTrack (mkTrack 1) "simulated_audio_0";
         ConsoleError "Error sending audio buffer" ]
  /\ ~ rejected_after_teardown
        (sendAudioBuffer publish_fails_env demo_clip demo_client)
  /\ outcome (WholeBuffer.sendAudioBuffer publish_fails_env demo_play_env
                demo_clip demo_client)
     = Throw (Failure "publishTrack")
  /\ events (WholeBuffer.sendAudioBuffer publish_fails_env demo_play_env
               demo_clip demo_client)
     = [ CreateBufferSource; CreateMediaStreamDestination; SourceConnect;
         PublishTrack (mkTrack 1) "simulated_audio_0";
         ConsoleError "Error sending audio buffer" ]
  /\ ~ rejected_after_teardown
        (WholeBuffer.sendAudioBuffer publish_fails_env demo_play_env
           demo_clip demo_client)
  /\ ~ teardown_unconditional.
Proof.
  assert (Hr : ~ rejected_after_teardown
                 (sendAudioBuffer publish_fails_env demo_clip demo_client)).
  { intros (_ & Hin & _). vm_compute in Hin. intuition discriminate. }
  assert (Hw : ~ rejected_after_teardown
                 (WholeBuffer.sendAudioBuffer publish_fails_env demo_play_env
                    demo_clip demo_client)).
  { intros (_ & Hin & _). vm_compute in Hin. intuition discriminate. }
  repeat split; try assumption.
  intros Hclaim.
  apply Hr.
  refine (proj1 (Hclaim publish_fails_env demo_play_env
                   demo_clip demo_client eq_refl _ _)).
  - discriminate.
  - right. left. reflexivity.
Qed.

(** The loop stops at the first chunk that cannot be scheduled, with the
    error of that chunk. *)
Lemma chunk_loop_throws env ab fuel : forall i off st,
  audioContext st <> None ->
  0 < chunkSizeInSamples (sampleRate ab) ->
  (Z.of_nat fuel - 1) * chunkSizeInSamples (sampleRate ab) < samples ab - off ->
  (exists k, i <= k < i + Z.of_nat fuel /\ chunk_ok env k = false) ->
  outcome (chunk_loop env ab fuel i off st) = Throw (Failure "chunk").
Proof.
  induction fuel as [|fuel IH]; intros i off st Hctx Hc Hfuel (k & Hk & Hko);
    [lia|].
  rewrite chunk_loop_round.
  set (c := chunkSizeInSamples (sampleRate ab)) in *.
  set (sz := Z.min c (samples ab - off)).
  destruct (audioContext st) eqn:E; [|congruence].
  assert (Hfull : Z.of_nat fuel * c < samples ab - off) by lia.
  assert (Hpos : 0 <= Z.of_nat fuel * c) by nia.
  destruct (Z.leb_spec sz 0) as [Hle|Hsz]; [unfold sz in Hle; lia|].
  destruct (chunk_ok env i) eqn:Hi; cbn [negb]; [|reflexivity].
  assert (Hki : i + 1 <= k).
  { destruct (Z.eq_dec k i) as [->|]; [congruence|lia]. }
  assert (Hnext : (Z.of_nat fuel - 1) * c < samples ab - (off + sz)).
  { unfold sz. lia. }
  assert (Hk' : i + 1 <= k < i + 1 + Z.of_nat fuel) by lia.
  specialize (IH (i + 1) (off + sz) st ltac:(congruence) Hc Hnext
                 (ex_intro _ k (conj Hk' Hko))).
  destruct (chunk_loop env ab fuel (i + 1) (off + sz) st) as [l c' o].
  exact IH.
Qed.

Lemma sendAudioProgressively_throws env ab st :
  audioContext st <> None -> 50 <= sampleRate ab -> unschedulable env ab ->
  outcome (sendAudioProgressively env ab st) = Throw (Failure "chunk").
Proof.
  intros Hctx HR (k & Hk & Hko). rewrite sendAudioProgressively_run.
  pose proof (chunkSize_pos _ HR) as Hc.
  set (c := chunkSizeInSamples (sampleRate ab)) in *.
  destruct (audioContext st) eqn:E; [|congruence].
  rewrite numChunks_ceil_div by lia. cbn [iterations].
  pose proof (ceil_div_spec (samples ab) c Hc) as Hspec.
  assert (Hfuel : (Z.of_nat (Z.to_nat (ceil_div (samples ab) c)) - 1) * c
                  < samples ab - 0) by lia.
  assert (Hk' : 0 <= k < 0 + Z.of_nat (Z.to_nat (ceil_div (samples ab) c)))
    by lia.
  pose proof (chunk_loop_throws env ab (Z.to_nat (ceil_div (samples ab) c))
                0 0 st ltac:(congruence) Hc Hfuel
                (ex_intro _ k (conj Hk' Hko))) as Hthrow.
  destruct (chunk_loop env ab _ 0 0 st) as [l c' o]. cbn [outcome] in Hthrow.
  now rewrite Hthrow.
Qed.

(** The [catch] of [sendAudioBuffer] logs and throws what it caught: past
    the guards the send ends as its [try] block does. *)
Lemma sendAudioBuffer_rethrows env ab st :
  connected st = true -> audioContext st <> None ->
  outcome (sendAudioBuffer env ab st)
  = outcome (sendAudioBuffer_body env ab st).
Proof.
  destruct st as [r cn t an fr ctx k pub]. cbn [connected audioContext].
  intros -> Hctx. destruct ctx as [ctx|]; [|congruence].
  cbv beta iota zeta delta
    [sendAudioBuffer bind try_catch this throw perform connected audioContext
     negb].
  destruct (sendAudioBuffer_body env ab _) as [l c [[]|e|]]; reflexivity.
Qed.

(** A send that gets to publish and is published ends as its progressive
    sender does. *)
Lemma sendAudioBuffer_streams env ab st :
  reaches_publish env st = true -> publish_ok env = true ->
  exists st',
    audioContext st' <> None
    /\ (outcome (sendAudioProgressively env ab st') <> Return tt ->
        outcome (sendAudioBuffer env ab st)
        = outcome (sendAudioProgressively env ab st')).
Proof.
  destruct st as [r cn t an fr ctx k pub].
  destruct env as [uok rok dok nt pok cok enc].
  unfold reaches_publish.
  cbn [connected audioContext room resume_ok destination_ok new_track
       publish_ok].
  intros Hreach ->.
  split_send_eqn; try discriminate Hreach.
  all: match goal with
       | Hp : sendAudioProgressively _ _ ?s = _ |- _ =>
           exists s; rewrite Hp; split; [discriminate|]
       end;
       cbn [outcome]; intros H; (reflexivity || (exfalso; apply H; reflexivity)).
Qed.

(** Where the first failure is that there is no track, or that
    [publishTrack] rejects, the send rejects with the error of that step. *)
Lemma sendAudioBuffer_early_failure env ab st :
  (reaches_track env st = true -> new_track env = None ->
     outcome (sendAudioBuffer env ab st)
     = Throw (Error "Failed to create audio track"))
  /\ (reaches_publish env st = true -> publish_ok env = false ->
      outcome (sendAudioBuffer env ab st) = Throw (Failure "publishTrack")).
Proof.
  destruct st as [r cn t an fr ctx k pub].
  destruct env as [uok rok dok nt pok cok enc].
  unfold reaches_track, reaches_publish.
  cbn [connected audioContext room resume_ok destination_ok new_track
       publish_ok].
  split; intros Hreach Hfail; try discriminate Hfail; subst;
    split_send; try discriminate Hreach; reflexivity.
Qed.

Lemma whole_buffer_early_failure env penv ab st :
  (reaches_track env st = true -> new_track env = None ->
     outcome (WholeBuffer.sendAudioBuffer env penv ab st)
     = Throw (Error "Failed to create audio track from buffer"))
  /\ (reaches_publish env st = true -> publish_ok env = false ->
      outcome (WholeBuffer.sendAudioBuffer env penv ab st)
      = Throw (Failure "publishTrack")).
Proof.
  destruct st as [r cn t an fr ctx k pub].
  destruct env as [uok rok dok nt pok cok enc].
  destruct penv as [cbs tok].
  unfold reaches_track, reaches_publish.
  cbn [connected audioContext room resume_ok destination_ok new_track
       publish_ok].
  split; intros Hreach Hfail; try discriminate Hfail; subst;
    split_whole; try discriminate Hreach; reflexivity.
Qed.

(** Whatever the [try] block of the whole-buffer variant throws, the send
    rejects with, and no step of the teardown was made. *)
Lemma whole_buffer_rethrows env penv ab st e :
  connected st = true -> audioContext st <> None ->
  outcome (WholeBuffer.sendAudioBuffer_body env ab st) = Throw e ->
  rejected_with e (WholeBuffer.sendAudioBuffer env penv ab st).
Proof.
  destruct st as [r cn t an fr ctx k pub].
  destruct env as [uok rok dok nt pok cok enc].
  destruct penv as [cbs tok].
  unfold rejected_with.
  cbn [connected audioContext]. intros -> Hctx.
  destruct ctx as [ctx|]; [|congruence].
  split_whole.
  all: intros H; try discriminate H; injection H as <-; split; reflexivity.
Qed.

(** C4, amended: in both variants a failure while creating the track or
    publishing, and in the progressive variant while scheduling chunks,
    makes [sendAudioBuffer] reject with that failure, the error of the step
    that failed, and on those paths no step of the teardown is made.  The
    teardown (disconnect the nodes, stop the track) is made where streaming
    or playback came to its end: it is the last thing a send does before
    it resolves, and in the whole-buffer variant also before it rejects on
    the safety timeout. *)
Theorem teardown_after_playback_only env penv ab st :
  let r := sendAudioBuffer env ab st in
  let w := WholeBuffer.sendAudioBuffer env penv ab st in
  (outcome r = Return tt ->
     exists pre t, events r = pre ++ [DestinationDisconnect; TrackStop t]
                   /\ count is_teardown pre = 0%nat)
  /\ (outcome r <> Return tt -> rejected_without_teardown r)
  /\ (connected st = true -> audioContext st <> None ->
      (forall e, outcome (sendAudioBuffer_body env ab st) = Throw e ->
                 rejected_with e r)
      /\ (forall e, outcome (WholeBuffer.sendAudioBuffer_body env ab st) = Throw e ->
                    rejected_with e w))
  /\ (reaches_track env st = true -> new_track env = None ->
      rejected_with (Error "Failed to create audio track") r
      /\ rejected_with (Error "Failed to create audio track from buffer") w)
  /\ (reaches_publish env st = true -> publish_ok env = false ->
      rejected_with (Failure "publishTrack") r
      /\ rejected_with (Failure "publishTrack") w)
  /\ (reaches_publish env st = true -> publish_ok env = true ->
      50 <= sampleRate ab -> unschedulable env ab ->
      rejected_with (Failure "chunk") r)
  /\ (outcome w = Return tt ->
        exists t, lastn 3 (events w)
                  = [SourceDisconnect; DestinationDisconnect; TrackStop t])
  /\ (outcome w = Throw (Error timeout_message) ->
        exists t, lastn 5 (events w)
                  = ConsoleWarn timeout_message :: cleanup_calls t).
Proof.
  intros r w.
  destruct (whole_buffer_teardown env penv ab st) as (W1 & W2 & W3).
  assert (Hrej : forall e, outcome r = Throw e -> rejected_with e r).
  { intros e He. split; [exact He|].
    apply sendAudioBuffer_rejected_teardown. fold r. rewrite He. discriminate. }
  split; [|split; [|split; [|split; [|split; [|split; [|split]]]]]];
    [ apply sendAudioBuffer_resolved_teardown
    | apply sendAudioBuffer_rejected_teardown
    | | | | | exact W1 | exact W2 ].
  - intros Hc Hctx. split.
    + intros e He. apply Hrej. unfold r.
      now rewrite (sendAudioBuffer_rethrows env ab st Hc Hctx).
    + intros e He. now apply whole_buffer_rethrows.
  - intros Hreach Hnone. split.
    + apply Hrej.
      exact (proj1 (sendAudioBuffer_early_failure env ab st) Hreach Hnone).
    + split.
      * exact (proj1 (whole_buffer_early_failure env penv ab st) Hreach Hnone).
      * exact (proj2 (W3 (or_introl Hnone))).
  - intros Hreach Hpub. split.
    + apply Hrej.
      exact (proj2 (sendAudioBuffer_early_failure env ab st) Hreach Hpub).
    + split.
      * exact (proj2 (whole_buffer_early_failure env penv ab st) Hreach Hpub).
      * exact (proj2 (W3 (or_intror Hpub))).
  - intros Hreach Hpub HR Hun. apply Hrej.
    destruct (sendAudioBuffer_streams env ab st Hreach Hpub)
      as (st' & Hctx & Hout).
    pose proof (sendAudioProgressively_throws env ab st' Hctx HR Hun) as Hthrow.
    unfold r. rewrite Hout; [exact Hthrow|].
    rewrite Hthrow. discriminate.
Qed.

Lemma teardown_after_playback_only_witness :
  rejected_with (Failure "publishTrack")
    (sendAudioBuffer publish_fails_env demo_clip demo_client)
  /\ rejected_with (Failure "publishTrack")
       (WholeBuffer.sendAudioBuffer publish_fails_env demo_play_env
          demo_clip demo_client)
  /\ rejected_with (Failure "chunk")
       (sendAudioBuffer chunk_fails_env demo_clip demo_client)
  /\ (exists pre t,
        events (sendAudioBuffer demo_env demo_clip demo_client)
        = pre ++ [DestinationDisconnect; TrackStop t]
        /\ count is_teardown pre = 0%nat)
  /\ (exists t,
        lastn 5 (events (WholeBuffer.sendAudioBuffer demo_env
                           (WholeBuffer.mkPlayEnv [WholeBuffer.safety_timeout] true)
                           demo_clip demo_client))
        = ConsoleWarn timeout_message :: cleanup_calls t).
Proof.
  split; [|split; [|split; [|split]]].
  - exact (proj1 (proj1 (proj2 (proj2 (proj2 (proj2
             (teardown_after_playback_only publish_fails_env
                demo_play_env demo_clip demo_client)))))
             eq_refl eq_refl)).
  - exact (proj2 (proj1 (proj2 (proj2 (proj2 (proj2
             (teardown_after_playback_only publish_fails_env
                demo_play_env demo_clip demo_client)))))
             eq_refl eq_refl)).
  - refine (proj1 (proj2 (proj2 (proj2 (proj2 (proj2
             (teardown_after_playback_only chunk_fails_env
                demo_play_env demo_clip demo_client))))))
             eq_refl eq_refl _ _).
    + unfold demo_clip, sampleRate. lia.
    + exists 1. split; [change (0 <= 1 < 3); lia|reflexivity].
  - exact (proj1 (teardown_after_playback_only demo_env
                    demo_play_env demo_clip demo_client)
             eq_refl).
  - exact (proj2 (proj2 (proj2 (proj2 (proj2 (proj2 (proj2
             (teardown_after_playback_only demo_env
                (WholeBuffer.mkPlayEnv [WholeBuffer.safety_timeout] true)
                demo_clip demo_client)))))))
             eq_refl).
Defined.

(** ** The control channel *)

Lemma not_server_spec participant :
  not_server participant = false
  <-> exists p, participant = Some p /\ identity p = "server"%string.
Proof.
  unfold not_server. destruct participant as [p|].
  - destruct (String.eqb_spec (identity p) "server") as [E|E]; cbn [negb].
    + split; [eauto|reflexivity].
    + split; [discriminate|]. intros (q & [= <-] & Hq). contradiction.
  - split; [discriminate|]. intros (q & Hq & _). discriminate.
Qed.

Ltac run_data :=
  cbv beta iota zeta delta
    [handleDataEvents event_type strict_eq_string
     bind try_catch ret throw perform assign this events log final outcome
     set_isAgentTalking connected map snd app count filter length is_emit].

Section DataEventsFacts.

Variable decode : list Byte.byte -> string.
Variable JSON_parse : string -> option json.

Lemma handleDataEvents_total payload participant st :
  let r := handleDataEvents decode JSON_parse payload participant st in
  outcome r = Return tt /\ connected (final r) = connected st.
Proof.
  destruct st as [r cn t an fr ctx k pub].
  unfold handleDataEvents.
  destruct (not_server participant); [split; reflexivity|].
  destruct (JSON_parse (decode payload)) as [v|]; [|split; reflexivity].
  destruct v as [| | | |items|fields]; try (split; reflexivity).
  run_data.
  destruct (lookup "event_type" fields) as [[| | |s| |]|];
    try (split; reflexivity).
  repeat match goal with
         | |- context [String.eqb s ?x] => destruct (String.eqb s x)
         end; split; reflexivity.
Qed.

Lemma handleDataEvents_malformed payload participant st :
  not_server participant = false ->
  JSON_parse (decode payload) = None ->
  handleDataEvents decode JSON_parse payload participant st
  = mkResult [(st, ConsoleError "Error decoding data received")] st (Return tt).
Proof.
  intros Hs Hp. unfold handleDataEvents. rewrite Hs, Hp. reflexivity.
Qed.

Lemma handleDataEvents_unknown payload participant st v :
  not_server participant = false ->
  JSON_parse (decode payload) = Some v ->
  (forall s, declared_type v = Some s -> ~ In s known_types) ->
  let r := handleDataEvents decode JSON_parse payload participant st in
  count is_emit (events r) = 0%nat /\ final r = st.
Proof.
  intros Hs Hp Hty. unfold handleDataEvents. rewrite Hs, Hp.
  destruct v as [| | | |items|fields]; try (split; reflexivity).
  cbn [declared_type] in Hty. run_data.
  destruct (lookup "event_type" fields) as [[| | |s| |]|];
    try (split; reflexivity).
  specialize (Hty s eq_refl). unfold known_types in Hty. cbn [In] in Hty.
  repeat match goal with
         | |- context [String.eqb s ?x] =>
             destruct (String.eqb_spec s x); [exfalso; apply Hty; auto 10|]
         end.
  split; reflexivity.
Qed.

End DataEventsFacts.

(** C10: the handler of data-channel payloads.  From the participant
    ["server"]: a payload that does not parse as JSON is logged and nothing
    else, with no notification; a payload that parses to a value whose
    [event_type] is none of the five known ones emits no notification and
    leaves the client as it was.  A payload from anyone else, or from no
    participant, is ignored altogether.  In every case the handler returns
    normally and the connected flag keeps its value. *)
Theorem data_events_robust decode JSON_parse payload participant st :
  let r := handleDataEvents decode JSON_parse payload participant st in
  outcome r = Return tt
  /\ connected (final r) = connected st
  /\ (not_server participant = false ->
      JSON_parse (decode payload) = None ->
      count is_emit (events r) = 0%nat /\ final r = st
      /\ events r = [ConsoleError "Error decoding data received"])
  /\ (forall v,
        not_server participant = false ->
        JSON_parse (decode payload) = Some v ->
        (forall s, declared_type v = Some s -> ~ In s known_types) ->
        count is_emit (events r) = 0%nat /\ final r = st)
  /\ (not_server participant = true -> r = mkResult [] st (Return tt)).
Proof.
  intros r.
  destruct (handleDataEvents_total decode JSON_parse payload participant st)
    as [Ho Hc].
  split; [exact Ho|]. split; [exact Hc|]. split; [|split].
  - intros Hs Hp. unfold r.
    rewrite (handleDataEvents_malformed decode JSON_parse _ _ st Hs Hp).
    repeat split.
  - intros v Hs Hp Hty.
    exact (handleDataEvents_unknown decode JSON_parse _ _ st v Hs Hp Hty).
  - intros Hs. unfold r, handleDataEvents. rewrite Hs. reflexivity.
Qed.

Lemma data_events_robust_witness :
  events (handleDataEvents string_of_list_byte toy_parse
            (list_byte_of_string "oops") server demo_client)
  = [ConsoleError "Error decoding data received"]
  /\ count is_emit
       (events (handleDataEvents string_of_list_byte toy_parse
                  (list_byte_of_string "42") server demo_client)) = 0%nat
  /\ handleDataEvents string_of_list_byte toy_parse
       (list_byte_of_string "null") (Some (mkParticipant "user")) demo_client
     = mkResult [] demo_client (Return tt).
Proof.
  split; [|split].
  - exact (proj2 (proj2 (proj1 (proj2 (proj2
             (data_events_robust string_of_list_byte toy_parse
                (list_byte_of_string "oops") server demo_client)))
             eq_refl eq_refl))).
  - refine (proj1 (proj1 (proj2 (proj2 (proj2
             (data_events_robust string_of_list_byte toy_parse
                (list_byte_of_string "42") server demo_client))))
             (JNumber 42) eq_refl eq_refl _)).
    intros s H. discriminate H.
  - exact (proj2 (proj2 (proj2 (proj2
             (data_events_robust string_of_list_byte toy_parse
                (list_byte_of_string "null") (Some (mkParticipant "user"))
                demo_client))))
             eq_refl).
Defined.

(** * Further properties *)

(** ** The progressive sender on any run *)

Lemma schedule_app l l' : schedule (l ++ l') = schedule l ++ schedule l'.
Proof. apply flat_map_app. Qed.



Lemma chunk_loop_schedule env ab fuel : forall i off st,
  let plan := schedule (log (chunk_loop env ab fuel i off st)) in
  map fst plan
  = map (fun k => playOffset (i + Z.of_nat k)) (seq 0 (length plan))
  /\ Forall (fun tb => sampleRate (snd tb) = sampleRate ab) plan.
Proof.
  induction fuel as [|fuel IH]; intros i off st; cbv zeta.
  - split; [reflexivity|constructor].
  - rewrite chunk_loop_round.
    destruct (audioContext st); [|split; [reflexivity|constructor]].
    destruct (_ <=? 0); [split; [reflexivity|constructor]|].
    destruct (negb _); [split; [reflexivity|constructor]|].
    specialize (IH (i + 1)
                  (off + Z.min (chunkSizeInSamples (sampleRate ab))
                               (samples ab - off)) st).
    cbv zeta in IH.
    destruct (chunk_loop env ab fuel _ _ st) as [l c' o]. cbn [log] in *.
    destruct IH as [Htimes Hrates].
    rewrite schedule_app.
    change (schedule (map (pair st) (round_events env ab i off)))
      with [(playOffset i, chunk_at env ab off)].
    cbn [app map fst length seq]. split.
    + f_equal; [f_equal; lia|].
      rewrite Htimes, <- seq_shift, map_map.
      apply map_ext. intros k. f_equal. lia.
    + constructor; [reflexivity|exact Hrates].
Qed.

Lemma schedule_chunks l : map (fun tb => channelData (snd tb)) (schedule l)
                          = chunks_sent l.
Proof.
  induction l as [|[c e] l IH]; [reflexivity|].
  unfold schedule, chunks_sent in *. cbn [flat_map].
  rewrite map_app, IH. f_equal. destruct e; reflexivity.
Qed.

Lemma progressive_loop_log env ab st :
  exists l,
    log (chunk_loop env ab
           (iterations (numChunks (samples ab)
                          (chunkSizeInSamples (sampleRate ab)))) 0 0 st) = l
    /\ chunks_sent (log (sendAudioProgressively env ab st))
       = match audioContext st with Some _ => chunks_sent l | None => [] end
    /\ schedule (log (sendAudioProgressively env ab st))
       = match audioContext st with Some _ => schedule l | None => [] end.
Proof.
  eexists. split; [reflexivity|].
  rewrite sendAudioProgressively_run.
  destruct (audioContext st); [|split; reflexivity].
  destruct (chunk_loop env ab _ 0 0 st) as [l c [[]|e|]]; cbn [log];
    try (split; reflexivity).
  rewrite chunks_sent_app, schedule_app. cbn. now rewrite !app_nil_r.
Qed.


(** X2: on every run of the progressive sender the [k]-th chunk started is
    scheduled [k * 20 / 1000] seconds after the start, and carries the
    clip's sample rate. *)
Theorem progressive_schedule env ab st :
  let plan := schedule (log (sendAudioProgressively env ab st)) in
  map fst plan = map (fun k => playOffset (Z.of_nat k)) (seq 0 (length plan))
  /\ Forall (fun tb => sampleRate (snd tb) = sampleRate ab) plan
  /\ map (fun tb => channelData (snd tb)) plan
     = chunks_sent (log (sendAudioProgressively env ab st)).
Proof.
  cbv zeta. split; [|split]; [| |apply schedule_chunks].
  all: destruct (progressive_loop_log env ab st) as (l & Hl & _ & Hs);
       rewrite Hs; destruct (audioContext st);
       try (reflexivity || constructor); rewrite <- Hl.
  - exact (proj1 (chunk_loop_schedule env ab _ 0 0 st)).
  - exact (proj2 (chunk_loop_schedule env ab _ 0 0 st)).
Qed.

(** X3: the size the sender takes for the final chunk when it computes its
    last wait, [(totalSamples % chunkSize) || chunkSize], is the size of
    the last chunk it has sent. *)
Theorem final_wait_matches_last_chunk env ab st :
  0 < samples ab -> 0 < sampleRate ab ->
  outcome (sendAudioProgressively env ab st) = Return tt ->
  Z.of_nat (length (last (chunks_sent
                            (log (sendAudioProgressively env ab st))) []))
  = finalChunkSamples (samples ab) (chunkSizeInSamples (sampleRate ab)).
Proof.
  intros HL HR Hret.
  destruct (progressive_sent env ab st HR Hret) as [[Hc|H0] Hsent]; [|lia].
  set (c := chunkSizeInSamples (sampleRate ab)) in *.
  rewrite last_map_length, Hsent, copied_lengths.
  pose proof (slices_chunk_sizes (channelData ab) c Hc) as Hsz.
  cbv zeta in Hsz. fold (samples ab) in Hsz. rewrite Hsz.
  pose proof (Z.div_mod (samples ab) c ltac:(lia)) as Hdm.
  pose proof (Z.mod_pos_bound (samples ab) c Hc) as Hr.
  pose proof (Z.div_pos (samples ab) c ltac:(lia) Hc) as Hq.
  unfold chunk_sizes, finalChunkSamples.
  destruct (Z.eqb_spec c 0); [lia|].
  rewrite Z.rem_mod_nonneg by lia.
  destruct (Z.eqb_spec (samples ab mod c) 0) as [E|E].
  - rewrite app_nil_r, last_repeat by nia. lia.
  - rewrite last_last. lia.
Qed.

Lemma final_wait_matches_last_chunk_witness :
  Z.of_nat (length (last (chunks_sent
     (log (sendAudioProgressively demo_env demo_clip demo_client))) [])) = 1.
Proof.
  exact (final_wait_matches_last_chunk demo_env demo_clip demo_client
           eq_refl eq_refl eq_refl).
Defined.

(** ** More on [sendAudioBuffer] *)

Lemma streamed_no_emit st l :
  Forall (streamed st) l -> count is_emit (map snd l) = 0%nat.
Proof.
  apply streamed_count. intros [] H; (discriminate H || reflexivity).
Qed.

Ltac close_count lem :=
  repeat first [ rewrite count_cons | rewrite map_app
               | rewrite count_app | progress cbn [map snd] ];
  try (erewrite lem by eassumption); reflexivity.

Lemma sendAudioBuffer_frame env ab st :
  let r := sendAudioBuffer env ab st in
  connected (final r) = connected st
  /\ room (final r) = room st
  /\ isAgentTalking (final r) = isAgentTalking st
  /\ analyzerComponent (final r) = analyzerComponent st
  /\ captureAudioFrame (final r) = captureAudioFrame st.
Proof.
  destruct st as [r cn t an fr ctx k pub].
  destruct env as [uok rok dok nt pok cok enc].
  split_send; repeat split.
Qed.

Lemma sendAudioBuffer_no_emit env ab st :
  count is_emit (events (sendAudioBuffer env ab st)) = 0%nat.
Proof.
  destruct st as [r cn t an fr ctx k pub].
  destruct env as [uok rok dok nt pok cok enc].
  split_send; close_count streamed_no_emit.
Qed.

Lemma whole_buffer_frame env penv ab st :
  let w := WholeBuffer.sendAudioBuffer env penv ab st in
  connected (final w) = connected st
  /\ room (final w) = room st
  /\ isAgentTalking (final w) = isAgentTalking st
  /\ analyzerComponent (final w) = analyzerComponent st
  /\ captureAudioFrame (final w) = captureAudioFrame st
  /\ count is_emit (events w) = 0%nat.
Proof.
  destruct st as [r cn t an fr ctx k pub].
  destruct env as [uok rok dok nt pok cok enc].
  destruct penv as [cbs tok].
  split_whole; repeat split.
Qed.

(** X4: a send, in either variant and whatever its outcome, emits no
    notification and leaves the connected flag, the room, [isAgentTalking],
    the analyser and the animation frame as they were: a failure inside a
    send shows in its promise only. *)
Theorem send_keeps_the_call env penv ab st :
  let r := sendAudioBuffer env ab st in
  let w := WholeBuffer.sendAudioBuffer env penv ab st in
  (connected (final r) = connected st
   /\ room (final r) = room st
   /\ isAgentTalking (final r) = isAgentTalking st
   /\ analyzerComponent (final r) = analyzerComponent st
   /\ captureAudioFrame (final r) = captureAudioFrame st
   /\ count is_emit (events r) = 0%nat)
  /\ (connected (final w) = connected st
      /\ room (final w) = room st
      /\ isAgentTalking (final w) = isAgentTalking st
      /\ analyzerComponent (final w) = analyzerComponent st
      /\ captureAudioFrame (final w) = captureAudioFrame st
      /\ count is_emit (events w) = 0%nat).
Proof.
  cbv zeta. split; [|apply whole_buffer_frame].
  destruct (sendAudioBuffer_frame env ab st) as (H1 & H2 & H3 & H4 & H5).
  repeat split; try assumption. apply sendAudioBuffer_no_emit.
Qed.

Lemma chunk_loop_ext env env' ab fuel : forall i off st,
  (forall k, chunk_ok env k = chunk_ok env' k) ->
  nan_encoding env = nan_encoding env' ->
  chunk_loop env ab fuel i off st = chunk_loop env' ab fuel i off st.
Proof.
  induction fuel as [|fuel IH]; intros i off st H Henc; [reflexivity|].
  rewrite !chunk_loop_round, H, (IH _ _ _ H Henc).
  unfold round_events, chunk_at. rewrite Henc. reflexivity.
Qed.

Lemma sendAudioProgressively_ext env env' ab st :
  (forall k, chunk_ok env k = chunk_ok env' k) ->
  nan_encoding env = nan_encoding env' ->
  sendAudioProgressively env ab st = sendAudioProgressively env' ab st.
Proof.
  intros H Henc. rewrite !sendAudioProgressively_run.
  now rewrite (chunk_loop_ext env env' ab _ 0 0 st H Henc).
Qed.

Lemma but_warnings_cons e l :
  but_warnings (e :: l)
  = (if is_warning e then [] else [e]) ++ but_warnings l.
Proof. unfold but_warnings. cbn [filter]. destruct (is_warning e); reflexivity. Qed.

Lemma but_warnings_app l l' :
  but_warnings (l ++ l') = but_warnings l ++ but_warnings l'.
Proof. apply filter_app. Qed.

(** X5: unpublishing the previous track is best effort.  Whether
    [unpublishTrack] resolves or rejects, the send has the same outcome,
    leaves the same client and makes the same calls; only the warning
    differs. *)
Theorem unpublish_is_best_effort b env ab st :
  let r := sendAudioBuffer env ab st in
  let r' := sendAudioBuffer (with_unpublish b env) ab st in
  outcome r' = outcome r
  /\ final r' = final r
  /\ but_warnings (events r') = but_warnings (events r).
Proof.
  destruct st as [r cn t an fr ctx k pub].
  destruct env as [uok rok dok nt pok cok enc].
  unfold with_unpublish.
  cbn [resume_ok destination_ok new_track publish_ok chunk_ok nan_encoding].
  assert (Hext : forall s,
             sendAudioProgressively (mkSendEnv false rok dok nt pok cok enc) ab s
             = sendAudioProgressively (mkSendEnv true rok dok nt pok cok enc) ab s).
  { intros s. apply sendAudioProgressively_ext; reflexivity. }
  cbv zeta. destruct b, uok.
  all: repeat (run_send; rewrite ?Hext;
    match goal with
    | |- context [match ?x with _ => _ end] => is_var x; destruct x
    | |- context [sendAudioProgressively ?e ?a ?s] =>
        destruct (sendAudioProgressively e a s) as [? ? [[]|?|]]
    end);
  run_send; rewrite ?Hext.
  all: repeat split;
       repeat first [ rewrite but_warnings_cons | rewrite map_app
                    | rewrite but_warnings_app | progress cbn [map snd] ];
       reflexivity.
Qed.

(** X6: what a send leaves recorded.  Once past its two guards a send never
    keeps the publication it found: afterwards either none is recorded or
    the one it has just made, for the new track and under the name built
    from the counter it found.  When it resolves it is the latter. *)
Theorem send_records_its_publication env ab st :
  connected st = true -> audioContext st <> None ->
  let r := sendAudioBuffer env ab st in
  let made t := Some (mkPublication t (simulated_audio (audioTrackCounter st))) in
  (currentAudioPublication (final r) = None
   \/ exists t, new_track env = Some t
                /\ currentAudioPublication (final r) = made t)
  /\ (outcome r = Return tt ->
      exists t, new_track env = Some t
                /\ currentAudioPublication (final r) = made t).
Proof.
  destruct st as [r cn t an fr ctx k pub].
  destruct env as [uok rok dok nt pok cok enc].
  cbn [connected audioContext audioTrackCounter new_track].
  intros -> Hctx. destruct ctx; [|congruence]. cbv zeta.
  split_send; cbn [currentAudioPublication]; split;
    try (intros H; discriminate H);
    try (left; reflexivity);
    try (right; eexists; split; reflexivity);
    try (intros _; eexists; split; reflexivity).
Qed.

Lemma send_records_its_publication_witness :
  currentAudioPublication
    (final (sendAudioBuffer demo_env demo_clip published_client))
  = Some (mkPublication (mkTrack 1) "simulated_audio_1").
Proof.
  refine (match proj2 (send_records_its_publication demo_env demo_clip
                         published_client eq_refl _) eq_refl with
          | ex_intro _ t (conj Ht Hp) => _
          end).
  - discriminate.
  - injection Ht as <-. exact Hp.
Defined.

(** ** The whole-buffer variant *)

Lemma sendAudioBuffer_publication env ab st :
  let r := sendAudioBuffer env ab st in
  audioTrackCounter (final r)
  = (if counts_up env st then js_incr (audioTrackCounter st)
     else audioTrackCounter st)
  /\ currentAudioPublication (final r)
     = if negb (connected st) then currentAudioPublication st
       else match audioContext st, new_track env with
            | None, _ => currentAudioPublication st
            | Some _, Some t =>
                if reaches_publish env st && publish_ok env
                then Some (mkPublication t
                             (simulated_audio (audioTrackCounter st)))
                else None
            | Some _, None => None
            end.
Proof.
  destruct st as [r cn t an fr ctx k pub].
  destruct env as [uok rok dok nt pok cok enc].
  unfold counts_up, reaches_publish.
  split_send; split; reflexivity.
Qed.

Lemma whole_buffer_publication env penv ab st :
  let w := WholeBuffer.sendAudioBuffer env penv ab st in
  audioTrackCounter (final w)
  = (if counts_up env st then js_incr (audioTrackCounter st)
     else audioTrackCounter st)
  /\ currentAudioPublication (final w)
     = (if negb (connected st) then currentAudioPublication st
        else match audioContext st, new_track env with
             | None, _ => currentAudioPublication st
             | Some _, Some t =>
                 if reaches_publish env st && publish_ok env
                 then Some (mkPublication t
                              (simulated_audio (audioTrackCounter st)))
                 else None
             | Some _, None => None
             end)
  /\ published_names (events w)
     = (if reaches_publish env st
        then [simulated_audio (audioTrackCounter st)] else [])
  /\ Forall publishes_onto_nothing (log w)
  /\ chunks_sent (log w)
     = (if reaches_publish env st && publish_ok env
        then [channelData ab] else []).
Proof.
  destruct st as [r cn t an fr ctx k pub].
  destruct env as [uok rok dok nt pok cok enc].
  destruct penv as [cbs tok].
  unfold counts_up, reaches_publish.
  split_whole.
  all: cbn [map cleanup_calls app].
  all: repeat split;
       try (repeat first
              [ apply Forall_nil
              | apply Forall_cons; [intros H; try discriminate H; reflexivity|] ]).
Qed.

(** X7: the two variants of [sendAudioBuffer] retire and publish alike.
    For the same client and the same answers of the room they publish under
    the same name, leave the same counter and the same recorded
    publication, and the whole-buffer variant too has nothing recorded at
    the moment it calls [publishTrack]. *)
Theorem variants_publish_alike env penv ab st :
  let r := sendAudioBuffer env ab st in
  let w := WholeBuffer.sendAudioBuffer env penv ab st in
  published_names (events w) = published_names (events r)
  /\ audioTrackCounter (final w) = audioTrackCounter (final r)
  /\ currentAudioPublication (final w) = currentAudioPublication (final r)
  /\ Forall publishes_onto_nothing (log w).
Proof.
  cbv zeta.
  destruct (whole_buffer_publication env penv ab st)
    as (Wk & Wp & Wn & Wf & _).
  destruct (sendAudioBuffer_publication env ab st) as (Rk & Rp).
  rewrite Wk, Wp, Wn, Rk, Rp, sendAudioBuffer_names.
  repeat split. exact Wf.
Qed.

(** X8: the whole-buffer variant hands the clip to [source.start] in one
    piece, unchanged, and does so exactly when [publishTrack] was reached
    and resolved; otherwise it starts nothing. *)
Theorem whole_buffer_sends_the_clip env penv ab st :
  chunks_sent (log (WholeBuffer.sendAudioBuffer env penv ab st))
  = if reaches_publish env st && publish_ok env then [channelData ab] else [].
Proof.
  exact (proj2 (proj2 (proj2 (proj2
           (whole_buffer_publication env penv ab st))))).
Qed.

Lemma playback_calls penv t st :
  (count is_track_stop (events (WholeBuffer.playback penv t st)) <= 1)%nat
  /\ (count is_clear_timeout (events (WholeBuffer.playback penv t st)) <= 1)%nat
  /\ (outcome (WholeBuffer.playback penv t st) <> Pending ->
      count is_clear_timeout (events (WholeBuffer.playback penv t st)) = 1%nat)
  /\ (outcome (WholeBuffer.playback penv t st) = Pending
      <-> WholeBuffer.fires penv = []).
Proof.
  unfold events. rewrite playback_run.
  destruct penv as [[|[] cbs] []];
    cbn [WholeBuffer.fires WholeBuffer.teardown_ok log outcome];
    cbv [count cleanup_calls map snd filter is_track_stop is_clear_timeout
         length];
    repeat split; intros; try discriminate; try congruence; auto.
Qed.

(** X9: in the whole-buffer variant the first callback to fire decides:
    whatever fires later, [onended] or the safety timer, changes nothing.
    [cleanup] therefore stops the track at most once, clears the safety
    timer exactly once whenever the promise settles, and the promise stays
    pending only when no callback fires at all. *)
Theorem first_callback_decides penv t st :
  (forall cb rest,
      WholeBuffer.fires penv = cb :: rest ->
      WholeBuffer.playback penv t st
      = WholeBuffer.playback
          (WholeBuffer.mkPlayEnv [cb] (WholeBuffer.teardown_ok penv)) t st)
  /\ (count is_track_stop (events (WholeBuffer.playback penv t st)) <= 1)%nat
  /\ (outcome (WholeBuffer.playback penv t st) <> Pending ->
      count is_clear_timeout (events (WholeBuffer.playback penv t st)) = 1%nat)
  /\ (outcome (WholeBuffer.playback penv t st) = Pending
      <-> WholeBuffer.fires penv = []).
Proof.
  destruct (playback_calls penv t st) as (H1 & _ & H3 & H4).
  split; [|split; [exact H1|split; [exact H3|exact H4]]].
  intros cb rest Hf. rewrite !playback_run, Hf.
  cbn [WholeBuffer.fires WholeBuffer.teardown_ok]. reflexivity.
Qed.

Lemma first_callback_decides_witness :
  WholeBuffer.playback
    (WholeBuffer.mkPlayEnv
       [WholeBuffer.safety_timeout; WholeBuffer.onended; WholeBuffer.onended]
       true) (mkTrack 1) demo_client
  = WholeBuffer.playback
      (WholeBuffer.mkPlayEnv [WholeBuffer.safety_timeout] true)
      (mkTrack 1) demo_client.
Proof.
  exact (proj1 (first_callback_decides
                  (WholeBuffer.mkPlayEnv
                     [WholeBuffer.safety_timeout; WholeBuffer.onended;
                      WholeBuffer.onended] true) (mkTrack 1) demo_client)
           WholeBuffer.safety_timeout
           [WholeBuffer.onended; WholeBuffer.onended] eq_refl).
Defined.

(** ** [startCall] *)

Lemma stopCall_run st :
  events (stopCall st) = (if connected st then teardown_events st else [])
  /\ final (stopCall st) = (if connected st then torn_down st else st)
  /\ outcome (stopCall st) = Return tt.
Proof.
  destruct (connected st) eqn:Hc.
  - apply stopCall_connected. exact Hc.
  - rewrite (stopCall_disconnected st Hc). repeat split.
Qed.

Lemma teardown_events_emits st type :
  count (is_emit_of type) (teardown_events st)
  = if String.eqb "call_ended" type then 1%nat else 0%nat.
Proof.
  destruct st as [r cn t an fr ctx k pub]. unfold teardown_events.
  cbn [room analyzerComponent captureAudioFrame currentAudioPublication
       audioContext].
  destruct r, an, fr as [id|], pub, ctx as [[[]]|];
    try destruct (id =? 0); cbn [app is_closed state];
    rewrite !count_cons; cbn [is_emit_of];
    destruct (String.eqb "call_ended" type); reflexivity.
Qed.

Lemma teardown_events_room_disconnect st :
  count is_room_disconnect (teardown_events st)
  = match room st with Some _ => 1%nat | None => 0%nat end.
Proof.
  destruct st as [r cn t an fr ctx k pub]. unfold teardown_events.
  cbn [room analyzerComponent captureAudioFrame currentAudioPublication
       audioContext].
  destruct r, an, fr as [id|], pub, ctx as [[[]]|];
    try destruct (id =? 0); reflexivity.
Qed.

Ltac run_start :=
  cbv beta iota zeta delta
    [startCall bind try_catch ret throw perform this assign when
     localParticipant log final outcome negb
     set_room set_connected set_audioContext
     room connected isAgentTalking analyzerComponent captureAudioFrame
     audioContext audioTrackCounter currentAudioPublication
     connect_ok new_context simulationMode start_succeeds andb orb];
  cbn [app].

(** How [startCall] runs: to its end, or into its [catch], which calls
    [stopCall] on the client with the room it has built. *)
Lemma startCall_run env cfg st :
  let st1 := set_room new_room st in
  (start_succeeds env cfg = true ->
   startCall env cfg st
   = mkResult
       ((st1, RoomConnect)
        :: (if simulationMode cfg then (st1, NewAudioContext)
            else (st1, SetMicrophoneEnabled true))
        :: [(set_connected true
               (if simulationMode cfg
                then set_audioContext (new_context env) st1 else st1),
             Emit "call_started" None)])
       (set_connected true
          (if simulationMode cfg
           then set_audioContext (new_context env) st1 else st1))
       (Return tt))
  /\ (start_succeeds env cfg = false ->
      startCall env cfg st
      = match stopCall st1 with
        | mkResult l c o =>
            mkResult
              ((st1, RoomConnect)
               :: (if connect_ok env then [(st1, NewAudioContext)] else [])
               ++ (st1, Emit "error" (Some (JString "Error starting call")))
               :: (st1, ConsoleError "Error starting call") :: l)
              c o
        end).
Proof.
  destruct env as [cok nctx]. destruct cfg as [tok sim raw].
  destruct st as [r cn t an fr ctx k pub].
  unfold new_room.
  destruct cok, sim, nctx; run_start; split; intros H; try discriminate H;
    try reflexivity;
    match goal with
    | |- context [stopCall ?s] => destruct (stopCall s) as [l c o]
    end; reflexivity.
Qed.

(** X10: [startCall] never rejects.  Afterwards the client is connected
    exactly when the room connected and, in simulation mode, the audio
    context could be built; it has then emitted [call_started] once and no
    [error], and otherwise [error] once and no [call_started]. *)
Theorem startCall_settles env cfg st :
  let r := startCall env cfg st in
  outcome r = Return tt
  /\ connected (final r) = start_succeeds env cfg
  /\ count (is_emit_of "call_started") (events r)
     = (if start_succeeds env cfg then 1%nat else 0%nat)
  /\ count (is_emit_of "error") (events r)
     = (if start_succeeds env cfg then 0%nat else 1%nat).
Proof.
  cbv zeta. destruct (startCall_run env cfg st) as [Hok Hko].
  destruct (start_succeeds env cfg).
  - rewrite (Hok eq_refl). unfold events. cbn [log final outcome map snd].
    destruct (simulationMode cfg); repeat split.
  - rewrite (Hko eq_refl).
    destruct (stopCall_run (set_room new_room st)) as (He & Hf & Ho).
    unfold events in *.
    destruct (stopCall (set_room new_room st)) as [l c o].
    cbn [log final outcome] in *. subst c o.
    split; [reflexivity|]. split.
    + destruct st as [r cn t an fr ctx k pub]. destruct cn; reflexivity.
    + destruct (connect_ok env);
        repeat first [ rewrite count_cons | rewrite map_app
                     | rewrite count_app | progress cbn [map snd app] ];
        rewrite He;
        destruct (connected (set_room new_room st));
        rewrite ?teardown_events_emits; split; reflexivity.
Qed.

(** X11: the cleanup of a failed [startCall] does nothing when the client
    was not connected before: its [stopCall] returns at the guard.  The
    room that was built stays in its field and is not disconnected, also
    when it had connected and only the audio context failed; no
    [call_ended] is emitted and nothing else of the client changes. *)
Theorem failed_start_keeps_the_room env cfg st :
  connected st = false -> start_succeeds env cfg = false ->
  let r := startCall env cfg st in
  final r = set_room new_room st
  /\ count is_room_disconnect (events r) = 0%nat
  /\ count (is_emit_of "call_ended") (events r) = 0%nat
  /\ events r
     = RoomConnect
       :: (if connect_ok env then [NewAudioContext] else [])
       ++ [ Emit "error" (Some (JString "Error starting call"));
            ConsoleError "Error starting call" ].
Proof.
  intros Hc Hs. cbv zeta.
  rewrite (proj2 (startCall_run env cfg st) Hs).
  assert (Hc1 : connected (set_room new_room st) = false)
    by (destruct st; exact Hc).
  rewrite (stopCall_disconnected _ Hc1).
  unfold events. cbn [log final].
  destruct (connect_ok env); repeat split.
Qed.

Lemma failed_start_keeps_the_room_witness :
  final (startCall (mkStartEnv true None) demo_config new_RetellWebClient)
  = set_room new_room new_RetellWebClient
  /\ count is_room_disconnect
       (events (startCall (mkStartEnv true None) demo_config
                  new_RetellWebClient)) = 0%nat.
Proof.
  exact (conj
    (proj1 (failed_start_keeps_the_room (mkStartEnv true None) demo_config
              new_RetellWebClient eq_refl eq_refl))
    (proj1 (proj2 (failed_start_keeps_the_room (mkStartEnv true None)
                     demo_config new_RetellWebClient eq_refl eq_refl)))).
Defined.

(** X12: a call that is started on a fresh client and then stopped leaves
    the client as the constructor built it, having emitted [call_started]
    and then [call_ended], once each, and disconnected the room once. *)
Theorem start_then_stop env cfg :
  start_succeeds env cfg = true ->
  (forall ctx, new_context env = Some ctx -> state ctx <> closed) ->
  let started := startCall env cfg new_RetellWebClient in
  let stopped := stopCall (final started) in
  final stopped = new_RetellWebClient
  /\ filter is_emit (events started ++ events stopped)
     = [Emit "call_started" None; Emit "call_ended" None]
  /\ count is_room_disconnect (events started ++ events stopped) = 1%nat.
Proof.
  intros Hs Hopen. cbv zeta.
  rewrite (proj1 (startCall_run env cfg new_RetellWebClient) Hs).
  cbn [final]. unfold events at 1 3. cbn [log map snd].
  destruct env as [cok nctx]. destruct cfg as [tok sim raw].
  cbn [connect_ok new_context simulationMode] in *.
  destruct sim, nctx as [[[]]|]; try discriminate Hs;
    try (exfalso; exact (Hopen _ eq_refl eq_refl));
    repeat split.
Qed.

Lemma start_then_stop_witness :
  final (stopCall (final (startCall demo_start_env demo_config
                            new_RetellWebClient)))
  = new_RetellWebClient.
Proof.
  refine (proj1 (start_then_stop demo_start_env demo_config eq_refl _)).
  intros ctx [= <-]. discriminate.
Defined.

(** ** Sends within a call *)

Lemma sendAudioBuffer_guard env ab st :
  connected st = false \/ audioContext st = None ->
  sendAudioBuffer env ab st
  = mkResult [] st
      (Throw (Error (if connected st then no_context_message
                     else not_connected_message))).
Proof.
  destruct st as [r cn t an fr ctx k pub]. cbn [connected audioContext].
  intros [->| ->]; [reflexivity|]. destruct cn; reflexivity.
Qed.

Lemma startCall_connected env cfg st :
  connected (final (startCall env cfg st)) = start_succeeds env cfg.
Proof.
  destruct (startCall_run env cfg st) as [Hok Hko].
  destruct (start_succeeds env cfg).
  - rewrite (Hok eq_refl). destruct (simulationMode cfg); reflexivity.
  - rewrite (Hko eq_refl).
    destruct (stopCall_run (set_room new_room st)) as (_ & Hf & _).
    destruct (stopCall (set_room new_room st)) as [l c o].
    cbn [final] in *. subst c.
    destruct st as [r cn t an fr ctx k pub]. destruct cn; reflexivity.
Qed.

(** X13: [sendAudioBuffer] needs a call started in simulation mode.  After
    a [startCall] without it, on a client that had no audio context, every
    [sendAudioBuffer] rejects before calling anything: with the message
    about the missing context when the call did start, and with the one
    about not being connected when it did not. *)
Theorem send_needs_simulation_mode env cfg st env' ab :
  audioContext st = None -> simulationMode cfg = false ->
  let st' := final (startCall env cfg st) in
  sendAudioBuffer env' ab st'
  = mkResult [] st'
      (Throw (Error (if start_succeeds env cfg then no_context_message
                     else not_connected_message))).
Proof.
  intros Hctx Hsim. cbv zeta.
  assert (Hnone : audioContext (final (startCall env cfg st)) = None).
  { destruct (startCall_run env cfg st) as [Hok Hko].
    destruct (start_succeeds env cfg).
    - rewrite (Hok eq_refl), Hsim. destruct st; exact Hctx.
    - rewrite (Hko eq_refl).
      destruct (stopCall_run (set_room new_room st)) as (_ & Hf & _).
      destruct (stopCall (set_room new_room st)) as [l c o].
      cbn [final] in *. subst c.
      destruct st as [r cn t an fr ctx k pub]. cbn [audioContext] in Hctx.
      subst ctx. destruct cn; reflexivity. }
  rewrite sendAudioBuffer_guard by (right; exact Hnone).
  now rewrite startCall_connected.
Qed.

Lemma send_needs_simulation_mode_witness :
  sendAudioBuffer demo_env demo_clip microphone_client
  = mkResult [] microphone_client (Throw (Error no_context_message)).
Proof.
  exact (send_needs_simulation_mode (mkStartEnv true None)
           (mkConfig "token" false false) new_RetellWebClient
           demo_env demo_clip eq_refl eq_refl).
Defined.




(** ** The life of a client *)

Lemma mute_run st :
  mute st
  = if connected st then
      match room st with
      | Some _ => mkResult [(st, SetMicrophoneEnabled false)] st (Return tt)
      | None =>
          mkResult [] st
            (Throw (TypeError
               "Cannot read properties of undefined (reading 'localParticipant')"))
      end
    else mkResult [] st (Return tt).
Proof.
  destruct st as [r cn t an fr ctx k pub]. destruct cn, r; reflexivity.
Qed.

Lemma unmute_run st :
  unmute st
  = if connected st then
      match room st with
      | Some _ => mkResult [(st, SetMicrophoneEnabled true)] st (Return tt)
      | None =>
          mkResult [] st
            (Throw (TypeError
               "Cannot read properties of undefined (reading 'localParticipant')"))
      end
    else mkResult [] st (Return tt).
Proof.
  destruct st as [r cn t an fr ctx k pub]. destruct cn, r; reflexivity.
Qed.

Lemma roomEvent_participant participant st :
  roomEvent (ParticipantDisconnected participant) st
  = mkResult
      (if not_server participant then []
       else [(st, SetTimeout (inject_Z hangupDelayMs))])
      st (Return tt).
Proof.
  unfold roomEvent. destruct (not_server participant); reflexivity.
Qed.

Lemma roomEvent_effect ev st :
  count is_call_ended (events (roomEvent ev st))
  = (if connected st && ends_call ev then 1%nat else 0%nat)
  /\ connected (final (roomEvent ev st))
     = connected st && negb (ends_call ev).
Proof.
  destruct ev as [p| |]; cbn [ends_call]; [|cbn [roomEvent]..].
  - rewrite (roomEvent_participant p st). cbn [final].
    rewrite !andb_false_r, andb_true_r.
    split; [|reflexivity]. unfold events. cbn [log].
    destruct (not_server p); reflexivity.
  - destruct (stopCall_run st) as (He & Hf & _). rewrite He, Hf.
    destruct (connected st) eqn:Hc; rewrite ?teardown_events_call_ended;
      cbn [andb negb torn_down connected]; rewrite ?Hc; split; reflexivity.
  - destruct (stopCall_run st) as (He & Hf & _). rewrite He, Hf.
    destruct (connected st) eqn:Hc; rewrite ?teardown_events_call_ended;
      cbn [andb negb torn_down connected]; rewrite ?Hc; split; reflexivity.
Qed.

Lemma stopCall_consistent st :
  consistent st -> consistent (final (stopCall st)).
Proof.
  intros Hst. destruct (stopCall_run st) as (_ & Hf & _). rewrite Hf.
  destruct (connected st) eqn:Hc; [|exact Hst].
  split; [discriminate|]. intros _. split; reflexivity.
Qed.

Lemma startCall_consistent env cfg st :
  consistent st -> consistent (final (startCall env cfg st)).
Proof.
  intros Hst. destruct (startCall_run env cfg st) as [Hok Hko].
  destruct (start_succeeds env cfg).
  - rewrite (Hok eq_refl). cbn [final].
    split; [|destruct (simulationMode cfg); discriminate].
    intros _. destruct (simulationMode cfg); destruct st; discriminate.
  - rewrite (Hko eq_refl).
    assert (H1 : consistent (set_room new_room st)).
    { destruct Hst as [_ H2]. destruct st. split; [discriminate|exact H2]. }
    pose proof (stopCall_consistent _ H1) as H.
    destruct (stopCall (set_room new_room st)) as [l c o]. exact H.
Qed.

Lemma sendAudioBuffer_consistent env ab st :
  consistent st -> consistent (final (sendAudioBuffer env ab st)).
Proof.
  intros [H1 H2].
  destruct (sendAudioBuffer_frame env ab st) as (Hc & Hr & _).
  split.
  - rewrite Hc, Hr. exact H1.
  - rewrite Hc. intros Hoff.
    rewrite sendAudioBuffer_guard by (left; exact Hoff). exact (H2 Hoff).
Qed.

Section LifetimeFacts.

Variable decode : list Byte.byte -> string.
Variable JSON_parse : string -> option json.

Lemma handleDataEvents_frame payload participant st :
  let r := handleDataEvents decode JSON_parse payload participant st in
  connected (final r) = connected st
  /\ room (final r) = room st
  /\ currentAudioPublication (final r) = currentAudioPublication st
  /\ audioTrackCounter (final r) = audioTrackCounter st.
Proof.
  destruct st as [r cn t an fr ctx k pub].
  unfold handleDataEvents.
  destruct (not_server participant); [repeat split|].
  destruct (JSON_parse (decode payload)) as [v|]; [|repeat split].
  destruct v as [| | | |items|fields]; try (repeat split; fail).
  run_data.
  destruct (lookup "event_type" fields) as [[| | |s| |]|];
    try (repeat split; fail).
  repeat match goal with
         | |- context [String.eqb s ?x] => destruct (String.eqb s x)
         end; repeat split.
Qed.

Lemma step_consistent o st :
  consistent st -> consistent (final (step decode JSON_parse o st)).
Proof.
  intros Hst. destruct o as [env cfg| |env ab| | |ev|payload participant];
    cbn [step].
  - now apply startCall_consistent.
  - now apply stopCall_consistent.
  - now apply sendAudioBuffer_consistent.
  - rewrite mute_run. destruct (connected st), (room st); exact Hst.
  - rewrite unmute_run. destruct (connected st), (room st); exact Hst.
  - destruct ev as [p| |]; cbn [roomEvent];
      [|now apply stopCall_consistent..].
    unfold when. destruct (negb (not_server p)); exact Hst.
  - destruct (handleDataEvents_frame payload participant st)
      as (Hc & Hr & Hp & Hk).
    destruct Hst as [H1 H2]. split.
    + rewrite Hc, Hr. exact H1.
    + rewrite Hc, Hp, Hk. exact H2.
Qed.

Lemma run_consistent ops : forall st,
  consistent st -> consistent (snd (run decode JSON_parse ops st)).
Proof.
  induction ops as [|o ops IH]; intros st Hst; [exact Hst|].
  cbn [run].
  specialize (IH _ (step_consistent o st Hst)).
  destruct (run decode JSON_parse ops (final (step decode JSON_parse o st)))
    as [l st'].
  exact IH.
Qed.

Lemma new_client_consistent : consistent new_RetellWebClient.
Proof. split; [discriminate|]. intros _. split; reflexivity. Qed.

(** X15: whatever is done with a client, in whatever order and with
    whatever outcome (calls started, stopped, sends, mutes, room events,
    data), between two method calls a connected client has its room, and a
    client that is not connected has no publication recorded and its
    counter at 0.  So every call that starts on a client that is not
    connected begins with no publication and with the counter at 0, and
    the first track it publishes is named [simulated_audio_0]. *)
Theorem client_stays_consistent ops :
  let st := snd (run decode JSON_parse ops new_RetellWebClient) in
  consistent st
  /\ (connected st = false ->
      forall env cfg,
        let st' := final (startCall env cfg st) in
        currentAudioPublication st' = None
        /\ audioTrackCounter st' = 0
        /\ forall env' ab,
             reaches_publish env' st' = true ->
             published_names (events (sendAudioBuffer env' ab st'))
             = ["simulated_audio_0"%string]).
Proof.
  cbv zeta.
  pose proof (run_consistent ops _ new_client_consistent) as Hst.
  split; [exact Hst|]. intros Hoff env cfg.
  set (st := snd (run decode JSON_parse ops new_RetellWebClient)) in *.
  destruct Hst as [_ H2]. destruct (H2 Hoff) as [Hp Hk].
  assert (H : currentAudioPublication (final (startCall env cfg st)) = None
              /\ audioTrackCounter (final (startCall env cfg st)) = 0).
  { destruct (startCall_run env cfg st) as [Hok Hko].
    destruct (start_succeeds env cfg).
    - rewrite (Hok eq_refl). cbn [final].
      destruct (simulationMode cfg); destruct st; split; assumption.
    - rewrite (Hko eq_refl).
      assert (Hoff1 : connected (set_room new_room st) = false)
        by (destruct st; exact Hoff).
      rewrite (stopCall_disconnected _ Hoff1). cbn [final].
      destruct st; split; assumption. }
  destruct H as [Hp' Hk']. split; [exact Hp'|]. split; [exact Hk'|].
  intros env' ab Hreach.
  now rewrite sendAudioBuffer_names, Hreach, Hk'.
Qed.

(** X16: on a client reached in any such way [mute] and [unmute] never
    throw: when it is connected they make their one call to
    [setMicrophoneEnabled], and when it is not they do nothing. *)
Theorem mute_is_safe ops :
  let st := snd (run decode JSON_parse ops new_RetellWebClient) in
  mute st
  = mkResult (if connected st then [(st, SetMicrophoneEnabled false)] else [])
      st (Return tt)
  /\ unmute st
     = mkResult (if connected st then [(st, SetMicrophoneEnabled true)] else [])
         st (Return tt).
Proof.
  cbv zeta.
  pose proof (run_consistent ops _ new_client_consistent) as [H1 _].
  set (st := snd (run decode JSON_parse ops new_RetellWebClient)) in *.
  rewrite mute_run, unmute_run.
  destruct (connected st); [|split; reflexivity].
  destruct (room st); [split; reflexivity|].
  exfalso. exact (H1 eq_refl eq_refl).
Qed.

(** X17: the room's events end a call once.  Over any sequence of them the
    client emits [call_ended] once if it was connected and the room
    disconnected or the hang-up timer fired, and not at all otherwise, and
    it is connected afterwards only if neither happened.  The departure of
    the ["server"] participant does not itself end the call: it arms the
    500 ms timer and nothing else, and that of anyone else does nothing. *)
Theorem room_events_end_the_call_once evs : forall st,
  let r := run decode JSON_parse (map Room_event evs) st in
  count is_call_ended (fst r)
  = (if connected st && existsb ends_call evs then 1%nat else 0%nat)
  /\ connected (snd r) = connected st && negb (existsb ends_call evs)
  /\ (forall participant,
        roomEvent (ParticipantDisconnected participant) st
        = mkResult
            (if not_server participant then []
             else [(st, SetTimeout (inject_Z hangupDelayMs))])
            st (Return tt))
  /\ hangupDelayMs = 500.
Proof.
  induction evs as [|ev evs IH]; intros st; cbv zeta.
  - cbn [map run fst snd existsb]. rewrite !andb_false_r, andb_true_r.
    repeat split. intros p. apply roomEvent_participant.
  - specialize (IH (final (roomEvent ev st))). cbv zeta in IH.
    destruct IH as (IHc & IHk & _).
    destruct (roomEvent_effect ev st) as [Hc Hk]. unfold events in Hc.
    cbn [map run existsb step].
    destruct (run decode JSON_parse (map Room_event evs)
                (final (roomEvent ev st))) as [l st'].
    cbn [fst snd] in *.
    rewrite count_app, Hc, IHc, IHk, Hk.
    split; [|split; [|split; [intros p; apply roomEvent_participant
                             |reflexivity]]];
      destruct (connected st), (ends_call ev), (existsb ends_call evs);
      reflexivity.
Qed.

End LifetimeFacts.

Lemma client_stays_consistent_witness :
  audioTrackCounter
    (final (startCall demo_start_env demo_config
              (snd (run string_of_list_byte toy_parse
                      [ Start demo_start_env demo_config;
                        Send demo_env demo_clip; Send demo_env demo_clip;
                        Room_event Disconnected ]
                      new_RetellWebClient)))) = 0.
Proof.
  exact (proj1 (proj2 (proj2 (client_stays_consistent string_of_list_byte
                  toy_parse
                  [ Start demo_start_env demo_config;
                    Send demo_env demo_clip; Send demo_env demo_clip;
                    Room_event Disconnected ]) eq_refl
                  demo_start_env demo_config))).
Defined.

(** ** Known control messages *)

(** X18: a payload from ["server"] that parses to an object whose
    [event_type] is one of the five known strings emits exactly one
    notification, of that type: with the parsed event for [update],
    [metadata] and [node_transition], without argument for the two talking
    events, which also set [isAgentTalking] to true and to false.  Nothing
    else of the client changes. *)
Theorem data_events_notify decode JSON_parse payload participant st v s :
  not_server participant = false ->
  JSON_parse (decode payload) = Some v ->
  declared_type v = Some s -> In s known_types ->
  handleDataEvents decode JSON_parse payload participant st
  = mkResult
      [(set_isAgentTalking (talking_after s (isAgentTalking st)) st,
        notification s v)]
      (set_isAgentTalking (talking_after s (isAgentTalking st)) st)
      (Return tt).
Proof.
  intros Hs Hp Hty Hin. unfold handleDataEvents. rewrite Hs, Hp.
  destruct v as [| | | |items|fields]; try discriminate Hty.
  cbn [declared_type] in Hty. run_data.
  destruct (lookup "event_type" fields) as [[| | |s'| |]|];
    try discriminate Hty.
  injection Hty as ->.
  destruct st as [r cn t an fr ctx k pub].
  unfold known_types in Hin. cbn [In] in Hin.
  destruct Hin as [<-|[<-|[<-|[<-|[<-|[]]]]]]; reflexivity.
Qed.

Lemma data_events_notify_witness :
  events (handleDataEvents string_of_list_byte demo_parse
            (list_byte_of_string "start") server demo_client)
  = [Emit "agent_start_talking" None]
  /\ isAgentTalking
       (final (handleDataEvents string_of_list_byte demo_parse
                 (list_byte_of_string "start") server demo_client)) = true.
Proof.
  pose proof (data_events_notify string_of_list_byte demo_parse
                (list_byte_of_string "start") server demo_client
                (JObject [("event_type"%string, JString "agent_start_talking")])
                "agent_start_talking" eq_refl eq_refl eq_refl
                (or_intror (or_intror (or_introl eq_refl)))) as H.
  rewrite H. split; reflexivity.
Defined.

(** ** [sendAudioChunk] *)

Ltac run_chunk :=
  cbv beta iota zeta delta
    [sendAudioChunk sendAudioChunk_body createBuffer
     bind try_catch ret throw never perform this assign when
     localParticipant the_audioContext events log final outcome negb
     is_suspended is_closed state
     set_room set_connected set_isAgentTalking set_analyzerComponent
     set_captureAudioFrame set_audioContext set_audioTrackCounter
     set_currentAudioPublication
     room connected isAgentTalking analyzerComponent captureAudioFrame
     audioContext audioTrackCounter currentAudioPublication
     unpublish_ok resume_ok destination_ok new_track publish_ok chunk_ok
     ended disconnect_ok track sampleRate];
  cbn [app snd fst].

Ltac split_chunk :=
  repeat (run_chunk;
    match goal with
    | |- context [match ?x with _ => _ end] => is_var x; destruct x
    | |- context [match ?f 0 with _ => _ end] => is_var f; destruct (f 0)
    | |- context [if ?n <=? 0 then _ else _] => destruct (n <=? 0)
    end);
  run_chunk.

Section ChunkFacts.

Variable to_float32 : Z -> float32.

(** X19: streamed chunks share one publication.  [sendAudioChunk] never
    unpublishes, never moves the track counter and publishes under no other
    name than [simulated_audio_stream]; and when a publication is already
    recorded it publishes nothing and leaves that publication recorded, so
    the track it has made for this chunk is not published. *)
Theorem chunk_reuses_publication env cenv pcmChunk st :
  let r := sendAudioChunk to_float32 env cenv pcmChunk st in
  audioTrackCounter (final r) = audioTrackCounter st
  /\ count is_unpublish (events r) = 0%nat
  /\ (forall name, In name (published_names (events r)) ->
        name = streamTrackName)
  /\ (forall pub, currentAudioPublication st = Some pub ->
        count is_publish (events r) = 0%nat
        /\ currentAudioPublication (final r) = Some pub).
Proof.
  destruct st as [r cn t an fr ctx k pub].
  destruct env as [uok rok dok nt pok cok enc].
  destruct cenv as [en dk].
  cbn [currentAudioPublication audioTrackCounter].
  split_chunk; cbn [map snd].
  all: split; [reflexivity|]; split; [reflexivity|]; split.
  all: try (intros p0 Hp0; try discriminate Hp0;
            split; [reflexivity|exact Hp0]).
  all: cbv [published_names flat_map published_name app In];
       intros name Hin; intuition (try discriminate; auto).
Qed.

(** X20: an empty chunk is refused.  [createBuffer] does not make a buffer
    of length zero, so [sendAudioChunk] on an empty chunk rejects, and it
    has then neither published nor started anything, nor changed what
    publication is recorded. *)
Theorem empty_chunk_is_rejected env cenv st :
  let r := sendAudioChunk to_float32 env cenv [] st in
  (exists e, outcome r = Throw e)
  /\ count is_publish (events r) = 0%nat
  /\ count is_start (events r) = 0%nat
  /\ currentAudioPublication (final r) = currentAudioPublication st
  /\ (connected st = true ->
      (exists ctx, audioContext st = Some ctx
                   /\ (state ctx = suspended -> resume_ok env = true)) ->
      outcome r = Throw NotSupportedError).
Proof.
  destruct st as [r cn t an fr ctx k pub].
  destruct env as [uok rok dok nt pok cok enc].
  destruct cenv as [en dk].
  cbn [currentAudioPublication connected audioContext resume_ok].
  run_chunk. cbn [map length Z.of_nat]. change (0 <=? 0) with true.
  split_chunk; cbn [map snd].
  all: split; [eexists; reflexivity|]; split; [reflexivity|];
       split; [reflexivity|]; split; [reflexivity|];
       intros Hc (c0 & Hctx & Hres);
       try discriminate Hc; try discriminate Hctx; try reflexivity;
       injection Hctx as <-; discriminate (Hres eq_refl).
Qed.

(** X21: a chunk resolves only once its playback has ended, and has then
    stopped its track, also when disconnecting the nodes threw.  It was
    played in one piece, at 24000 Hz, as the converted samples. *)
Theorem chunk_resolves_after_playback env cenv pcmChunk st :
  let r := sendAudioChunk to_float32 env cenv pcmChunk st in
  outcome r = Return tt ->
  ended cenv = true
  /\ (exists t, new_track env = Some t
                /\ lastn 1 (events r) = [TrackStop t])
  /\ schedule (log r) = [(0%Q, mkAudioBuffer 24000 (map to_float32 pcmChunk))].
Proof.
  destruct st as [r cn t an fr ctx k pub].
  destruct env as [uok rok dok nt pok cok enc].
  destruct cenv as [en dk].
  cbn [ended new_track].
  split_chunk; cbn [map snd]; intros H; try discriminate H.
  all: split; [reflexivity|]; split; [eexists; split; reflexivity|];
       reflexivity.
Qed.

End ChunkFacts.

Lemma chunk_reuses_publication_witness :
  count is_publish
    (events (sendAudioChunk (fun x => x) demo_env demo_chunk_env [1; 2; 3]
               published_client)) = 0%nat.
Proof.
  exact (proj1 (proj2 (proj2 (proj2
           (chunk_reuses_publication (fun x => x) demo_env demo_chunk_env
              [1; 2; 3] published_client)))
           (mkPublication (mkTrack 1) "simulated_audio_0") eq_refl)).
Defined.

Lemma empty_chunk_is_rejected_witness :
  outcome (sendAudioChunk (fun x => x) demo_env demo_chunk_env [] demo_client)
  = Throw NotSupportedError.
Proof.
  refine (proj2 (proj2 (proj2 (proj2
           (empty_chunk_is_rejected (fun x => x) demo_env demo_chunk_env
              demo_client)))) eq_refl _).
  exists (mkAudioContext running). split; [reflexivity|discriminate].
Defined.

Lemma chunk_resolves_after_playback_witness :
  lastn 1 (events (sendAudioChunk (fun x => x) demo_env demo_chunk_env
                     [1; 2; 3] demo_client))
  = [TrackStop (mkTrack 1)].
Proof.
  refine (match proj1 (proj2 (chunk_resolves_after_playback (fun x => x)
                               demo_env demo_chunk_env [1; 2; 3] demo_client
                               eq_refl)) with
          | ex_intro _ t (conj Ht Hl) => _
          end).
  injection Ht as <-. exact Hl.
Defined.
